(** * js-terminal: the sandbox worker and the terminal's message handling

    A shallow embedding of [assets/js/worker.js] (value formatter,
    [console.table], [resolveSpec], [evalCode]) and of the worker-message
    handler of the terminal page, followed by the properties of the
    specification that were checked against them.

    Modelling conventions.
    - JavaScript text is a [string] of bytes (UTF-8); the ellipsis used by
      the formatter is the three-byte sequence of U+2026.
    - A Number is modelled when it is an integer in the safe range, where
      [String(n)] is its decimal notation; fractions, NaN and the
      infinities are floating point and stay outside the embedding.
    - Objects live in a heap and are named by their address, so that
      sharing and cycles are what they are in the program.  An own
      enumerable property is a data slot or an accessor whose call
      completes normally or abruptly; what a read finds beyond them
      (non-enumerable and inherited members) is the engine's and is a
      parameter where the program reads it.  Where the program converts
      a member to text (the name of a function, the name, message and
      stack of an Error), the value holds the outcome of the conversion,
      which can be an exception.  Proxies, overridden
      [Symbol.toStringTag]s, sparse arrays, own properties that shadow
      the built-in methods called by the program, and built-ins replaced
      by a program text are not part of the value model. *)

From Stdlib Require Import ZArith String Ascii List DecimalString Lia.
From stdpp Require Import gmap strings list.

Open Scope string_scope.
Open Scope nat_scope.

(* ================================================================== *)
(** * Part I: the program                                              *)
(* ================================================================== *)

(** ** Text primitives of the host language *)

Module Text.

Definition quote : string := String "034"%char EmptyString.
Definition newline : string := String "010"%char EmptyString.

(** [String(n)] on an integer. *)
Definition decimal (z : Z) : string := NilZero.string_of_int (Z.to_int z).

(** [parts.join(sep)] on an array of strings. *)
Definition join (sep : string) (parts : list string) : string :=
  String.concat sep parts.

Definition hexDigit (n : nat) : ascii :=
  match n with
  | 0 => "0" | 1 => "1" | 2 => "2" | 3 => "3" | 4 => "4" | 5 => "5"
  | 6 => "6" | 7 => "7" | 8 => "8" | 9 => "9" | 10 => "a" | 11 => "b"
  | 12 => "c" | 13 => "d" | 14 => "e" | _ => "f"
  end%char.

(** One character of [JSON.stringify] on a string: the two-character
    escapes, [\u00XX] for the other control characters, anything else
    verbatim. *)
Definition escapeChar (c : ascii) : string :=
  let n := nat_of_ascii c in
  if n =? 8 then "\b"
  else if n =? 9 then "\t"
  else if n =? 10 then "\n"
  else if n =? 12 then "\f"
  else if n =? 13 then "\r"
  else if n =? 34 then "\" +:+ quote
  else if n =? 92 then "\\"
  else if n <? 32 then
    "\u00" +:+ String (hexDigit (n / 16)) (String (hexDigit (n mod 16)) EmptyString)
  else String c EmptyString.

(** A lone surrogate is held in the three-byte form of its code, [ED]
    [A0..BF] [80..BF], which the UTF-8 form of no character contains. *)
Definition surrogate (c c1 c2 : ascii) : option N :=
  let n := N_of_ascii c in
  let n1 := N_of_ascii c1 in
  let n2 := N_of_ascii c2 in
  if ((n =? 237) && (160 <=? n1) && (n1 <? 192) && (128 <=? n2) && (n2 <? 192))%N
  then Some (53248 + (n1 - 128) * 64 + (n2 - 128))%N
  else None.

Definition hex4 (u : N) : string :=
  let d (k : N) := hexDigit (N.to_nat ((u / k) mod 16)) in
  String (d 4096%N) (String (d 256%N) (String (d 16%N) (String (d 1%N) EmptyString))).

(** The characters of [JSON.stringify] on a string; a lone surrogate is
    written as its [\uXXXX] escape. *)
Fixpoint escape (s : string) : string :=
  match s with
  | EmptyString => EmptyString
  | String c rest =>
      match rest with
      | String c1 (String c2 rest') =>
          match surrogate c c1 c2 with
          | Some u => "\u" +:+ hex4 u +:+ escape rest'
          | None => escapeChar c +:+ escape rest
          end
      | _ => escapeChar c +:+ escape rest
      end
  end.

(** [JSON.stringify(s)] for a string [s]. *)
Definition JSON_stringify (s : string) : string := quote +:+ escape s +:+ quote.

Definition isEmpty (s : string) : bool :=
  match s with EmptyString => true | _ => false end.

(** [s.startsWith(p)] and [s.endsWith(p)] *)
Definition startsWith (p s : string) : bool := String.prefix p s.
Definition endsWith (p s : string) : bool :=
  String.prefix (String.rev p) (String.rev s).

Definition bytes (codes : list nat) : string :=
  string_of_list_ascii (map ascii_of_nat codes).

(** The UTF-16 code units of a text, which are what the indices of a
    JavaScript string count, each as a text of its own.  A character of
    one, two or three bytes is one unit; a character of four bytes is
    two surrogates. *)
Definition surrogateText (u : N) : string :=
  String (ascii_of_N (224 + u / 4096))
    (String (ascii_of_N (128 + (u / 64) mod 64))
       (String (ascii_of_N (128 + u mod 64)) EmptyString)).

Fixpoint utf16 (s : string) : list string :=
  match s with
  | EmptyString => []
  | String b0 rest =>
      let n0 := N_of_ascii b0 in
      if (n0 <? 192)%N then String b0 EmptyString :: utf16 rest
      else if (n0 <? 224)%N then
        match rest with
        | String b1 r1 => String b0 (String b1 EmptyString) :: utf16 r1
        | EmptyString => [String b0 EmptyString]
        end
      else if (n0 <? 240)%N then
        match rest with
        | String b1 (String b2 r2) =>
            String b0 (String b1 (String b2 EmptyString)) :: utf16 r2
        | _ => String b0 EmptyString :: utf16 rest
        end
      else
        match rest with
        | String b1 (String b2 (String b3 r3)) =>
            let cp := ((n0 - 240) * 262144 + (N_of_ascii b1 - 128) * 4096
                       + (N_of_ascii b2 - 128) * 64 + (N_of_ascii b3 - 128))%N in
            let v := (cp - 65536)%N in
            surrogateText (55296 + v / 1024)
              :: surrogateText (56320 + v mod 1024) :: utf16 r3
        | _ => String b0 EmptyString :: utf16 rest
        end
  end.

(** The WhiteSpace and LineTerminator code points that [trim] removes,
    in UTF-8: TAB, LF, VT, FF, CR, SP, U+00A0, U+1680, U+2000..U+200A,
    U+2028, U+2029, U+202F, U+205F, U+3000, U+FEFF. *)
Definition whiteSpace : list string :=
  map bytes
    ([[9]; [10]; [11]; [12]; [13]; [32]; [194; 160]; [225; 154; 128]]
     ++ map (fun b => [226; 128; b]) (seq 128 11)
     ++ [[226; 128; 168]; [226; 128; 169]; [226; 128; 175];
         [226; 129; 159]; [227; 128; 128]; [239; 187; 191]])%list.

Fixpoint stripPrefix (p s : string) : option string :=
  match p, s with
  | EmptyString, _ => Some s
  | String a p', String b s' => if Ascii.eqb a b then stripPrefix p' s' else None
  | String _ _, EmptyString => None
  end.

Fixpoint stripAny (tokens : list string) (s : string) : option string :=
  match tokens with
  | [] => None
  | t :: rest =>
      match stripPrefix t s with
      | Some s' => Some s'
      | None => stripAny rest s
      end
  end.

Fixpoint stripAll (tokens : list string) (fuel : nat) (s : string) : string :=
  match fuel with
  | 0 => s
  | S fuel' =>
      match stripAny tokens s with
      | Some s' => stripAll tokens fuel' s'
      | None => s
      end
  end.

Definition trimStart (s : string) : string :=
  stripAll whiteSpace (String.length s) s.
Definition trimEnd (s : string) : string :=
  String.rev (stripAll (map String.rev whiteSpace) (String.length s) (String.rev s)).

(** [s.trim()] *)
Definition trim (s : string) : string := trimEnd (trimStart s).

Definition lowerAscii (c : ascii) : ascii :=
  let n := nat_of_ascii c in
  if (65 <=? n) && (n <=? 90) then ascii_of_nat (n + 32) else c.

Fixpoint lower (s : string) : string :=
  match s with
  | EmptyString => EmptyString
  | String c rest => String (lowerAscii c) (lower rest)
  end.

(** A literal pattern anchored at the start under the [i] flag: without
    the [u] flag only ASCII letters fold onto ASCII letters. *)
Definition startsWithIgnoreCase (p s : string) : bool :=
  String.prefix p (lower (String.substring 0 (String.length p) s)).

End Text.

Import Text.

(** ** Runtime values *)

Definition addr := nat.

(** A [slot] is a member that the program reads as [x || fallback] and
    converts to text: it is missing or otherwise falsy, or it is truthy
    and converts to a text, or reading or converting it throws (an
    accessor; a Symbol, which no template literal converts). *)
Inductive value :=
| VNull
| VUndefined
| VString (s : string)
| VNumber (n : Z)
| VBoolean (b : bool)
| VBigInt (n : Z)
| VSymbol (description : string)
| VFunction (name : slot)
| VRef (a : addr)
with slot :=
| Falsy
| Text (s : string)
| Fails (e : value).

(** How a call, a property read or a whole evaluation completes. *)
Inductive completion (A : Type) :=
| Normal (a : A)
| Throw (e : value).
Arguments Normal {A} a.
Arguments Throw {A} e.

Inductive prop :=
| Data (v : value)
| Getter (c : completion value).

(** The classes of array for which [/Array$/] matches the class tag. *)
Inductive arrayKind :=
| Array | Int8Array | Uint8Array | Uint8ClampedArray | Int16Array
| Uint16Array | Int32Array | Uint32Array | Float16Array | Float32Array
| Float64Array | BigInt64Array | BigUint64Array.

(** An Error holds what the conversions of its name and of its message
    to text give.  A typed array whose buffer has been detached has the
    length 0 and a [slice] that throws; the [byteLength] of a view on
    such a buffer throws. *)
Inductive object :=
| ODate (iso : option string)
| ORegExp (source flags : string)
| OError (name message : completion string) (stack : slot)
| OArrayBuffer (byteLength : nat)
| OArray (kind : arrayKind) (elems : list value)
| ODetached (kind : arrayKind) (fault : value)
| OMap (entries : list (value * value))
| OSet (elems : list value)
| OPromise
| ODataView (byteLength : completion nat)
| OObject (props : list (string * prop)).

(** Every address holds an object: a reference never dangles. *)
Definition heap := addr -> object.

(** ** Messages from the worker to the page ([send])

    The page compares the id of a message with the ids it has drawn,
    which are strings: an id is [None] when the message has none or has
    one that is not a string. *)

Inductive message :=
| MsgReady
| MsgConsole (method formatted : string) (ts : Z)
| MsgTable (headers : list string) (rows : list (list string)) (ts : Z)
| MsgResult (id : option string) (formatted : string) (ts : Z)
| MsgError (id : option string) (formatted : string) (ts : Z)
| MsgClear
| MsgStatus (text : string)
| MsgOther.

(** ** Messages from the page to the worker ([worker.postMessage]) *)

Inductive request :=
| ReqEval (id code : string)
| ReqLoad (spec : string)
| ReqOther.

(** ** worker.js *)

Module Worker.

Definition arrayTag (k : arrayKind) : string :=
  match k with
  | Array => "Array" | Int8Array => "Int8Array" | Uint8Array => "Uint8Array"
  | Uint8ClampedArray => "Uint8ClampedArray" | Int16Array => "Int16Array"
  | Uint16Array => "Uint16Array" | Int32Array => "Int32Array"
  | Uint32Array => "Uint32Array" | Float16Array => "Float16Array"
  | Float32Array => "Float32Array" | Float64Array => "Float64Array"
  | BigInt64Array => "BigInt64Array" | BigUint64Array => "BigUint64Array"
  end.

(** [typeOf(x)]: the class tag of [Object.prototype.toString]. *)
Definition typeOf (o : object) : string :=
  match o with
  | ODate _ => "Date"
  | ORegExp _ _ => "RegExp"
  | OError _ _ _ => "Error"
  | OArrayBuffer _ => "ArrayBuffer"
  | OArray k _ => arrayTag k
  | ODetached k _ => arrayTag k
  | OMap _ => "Map"
  | OSet _ => "Set"
  | OPromise => "Promise"
  | ODataView _ => "DataView"
  | OObject _ => "Object"
  end.

(** [typeof val] *)
Definition typeof (val : value) : string :=
  match val with
  | VNull => "object"
  | VUndefined => "undefined"
  | VString _ => "string"
  | VNumber _ => "number"
  | VBoolean _ => "boolean"
  | VBigInt _ => "bigint"
  | VSymbol _ => "symbol"
  | VFunction _ => "function"
  | VRef _ => "object"
  end.

(** *** The formatter's effects

    [formatValue] mutates the [seen] set it was given and may be left by
    an exception.  A computation takes the set and yields its completion
    with the set as it then is; [None] is a recursion that was cut off
    by the fuel of the embedding. *)

Definition fmt (A : Type) : Type :=
  gset addr -> option (completion A * gset addr).

Definition ret {A} (a : A) : fmt A := fun seen => Some (Normal a, seen).
Definition raise {A} (e : value) : fmt A := fun seen => Some (Throw e, seen).
Definition bind {A B} (m : fmt A) (k : A -> fmt B) : fmt B :=
  fun seen =>
    match m seen with
    | None => None
    | Some (Throw e, seen') => Some (Throw e, seen')
    | Some (Normal a, seen') => k a seen'
    end.
Definition lift {A} (c : completion A) : fmt A :=
  match c with Normal a => ret a | Throw e => raise e end.

(** [seen.has(val)] and [seen.add(val)] *)
Definition seenHas (a : addr) : fmt bool :=
  fun seen => Some (Normal (bool_decide (a ∈ seen)), seen).
Definition seenAdd (a : addr) : fmt unit :=
  fun seen => Some (Normal tt, {[a]} ∪ seen).

Notation "'do' x <- m ; k" := (bind m (fun x => k))
  (at level 10, x name, m at level 100, k at level 200).

(** [xs.map(f)], left to right, abandoned at the first exception. *)
Fixpoint mapM {A B} (f : A -> fmt B) (xs : list A) : fmt (list B) :=
  match xs with
  | [] => ret []
  | x :: rest => do y <- f x; do ys <- mapM f rest; ret (y :: ys)
  end.

(** [val[k]] on the own properties of a plain object. *)
Fixpoint lookupProp (props : list (string * prop)) (k : string) : option prop :=
  match props with
  | [] => None
  | (k', p) :: rest => if String.eqb k' k then Some p else lookupProp rest k
  end.

Definition readProp (props : list (string * prop)) (k : string) : completion value :=
  match lookupProp props k with
  | Some (Data v) => Normal v
  | Some (Getter c) => c
  | None => Normal VUndefined
  end.

(** [Object.keys(val)]; a property list holds each key once, in the
    order in which the engine enumerates them. *)
Definition keysOf (props : list (string * prop)) : list string := map fst props.

(** The loop over a Map's entries (lines 29-34): the entry is pushed,
    then the counter is advanced and tested. *)
Fixpoint mapLoop (f : value -> fmt string) (entries : list (value * value))
    (i : nat) (parts : list string) : fmt (list string) :=
  match entries with
  | [] => ret parts
  | (k, v) :: rest =>
      do sk <- f k;
      do sv <- f v;
      let parts := (parts ++ [sk +:+ " => " +:+ sv])%list in
      let i := S i in
      if 50 <? i then ret (parts ++ ["…"])%list else mapLoop f rest i parts
  end.

(** The loop over a Set's members (lines 41-46). *)
Fixpoint setLoop (f : value -> fmt string) (members : list value)
    (i : nat) (parts : list string) : fmt (list string) :=
  match members with
  | [] => ret parts
  | v :: rest =>
      do sv <- f v;
      let parts := (parts ++ [sv])%list in
      let i := S i in
      if 50 <? i then ret (parts ++ ["…"])%list else setLoop f rest i parts
  end.

Definition lengthText {A} (l : list A) : string := decimal (Z.of_nat (length l)).

(** [${x || fallback}] *)
Definition orElse (fallback : string) (x : slot) : completion string :=
  match x with
  | Falsy => Normal fallback
  | Text s => Normal s
  | Fails e => Throw e
  end.

(** One activation of [formatValue] (lines 10-68); [self] stands for the
    recursive calls [formatValue(_, depth+1, seen)]. *)
Definition formatBody (self : value -> nat -> fmt string) (h : heap)
    (val : value) (depth : nat) : fmt string :=
  match val with
  | VNull => ret "null"
  | VUndefined => ret "undefined"
  | VString s => ret (JSON_stringify s)
  | VNumber n => ret (decimal n)
  | VBoolean b => ret (if b then "true" else "false")
  | VBigInt n => ret (decimal n)
  | VSymbol d => ret ("Symbol(" +:+ d +:+ ")")
  | VFunction name =>
      do shown <- lift (orElse "anonymous" name);
      ret ("[Function " +:+ shown +:+ "]")
  | VRef a =>
      let tag := typeOf (h a) in
      match h a with
      | ODate iso =>
          ret ("Date(" +:+ (match iso with None => "Invalid" | Some t => t end) +:+ ")")
      | ORegExp source flags => ret ("/" +:+ source +:+ "/" +:+ flags)
      | OError name message stack =>
          do n <- lift name;
          do m <- lift message;
          do trace <- lift (orElse EmptyString stack);
          ret (n +:+ ": " +:+ m +:+ newline +:+ trace)
      | OArrayBuffer n => ret ("ArrayBuffer(" +:+ decimal (Z.of_nat n) +:+ ")")
      | OArray _ elems =>
          if 2 <? depth then ret (tag +:+ "(" +:+ lengthText elems +:+ ") " +:+ "[…]")
          else
            do parts <- mapM (fun v => self v (depth + 1)) (take 50 elems);
            ret (tag +:+ "(" +:+ lengthText elems +:+ ") "
                 +:+ ("[" +:+ join ", " parts
                      +:+ (if 50 <? length elems then ", …" else EmptyString)
                      +:+ "]"))
      | ODetached _ fault =>
          if 2 <? depth then ret (tag +:+ "(0) " +:+ "[…]") else raise fault
      | OMap entries =>
          do visited <- seenHas a;
          if visited : bool then ret "[Circular Map]"
          else
            do _ <- seenAdd a;
            if 2 <? depth then ret "Map(…)"
            else
              do parts <- mapLoop (fun v => self v (depth + 1)) entries 0 [];
              ret ("Map(" +:+ lengthText entries +:+ ") { " +:+ join ", " parts +:+ " }")
      | OSet members =>
          do visited <- seenHas a;
          if visited : bool then ret "[Circular Set]"
          else
            do _ <- seenAdd a;
            if 2 <? depth then ret "Set(…)"
            else
              do parts <- setLoop (fun v => self v (depth + 1)) members 0 [];
              ret ("Set(" +:+ lengthText members +:+ ") { " +:+ join ", " parts +:+ " }")
      | OPromise => ret "[Promise]"
      | ODataView byteLength =>
          do n <- lift byteLength;
          ret ("DataView(" +:+ decimal (Z.of_nat n) +:+ ")")
      | OObject props =>
          do visited <- seenHas a;
          if visited : bool then ret "[Circular]"
          else
            do _ <- seenAdd a;
            if 2 <? depth then ret "{…}"
            else
              let keys := keysOf props in
              do parts <- mapM (fun k =>
                                  do v <- lift (readProp props k);
                                  do s <- self v (depth + 1);
                                  ret (JSON_stringify k +:+ ": " +:+ s))
                               (take 50 keys);
              let parts := if 50 <? length keys then (parts ++ ["…"])%list else parts in
              ret ("{ " +:+ join ", " parts +:+ " }")
      end
  end.

Fixpoint formatValue_fuel (fuel : nat) (h : heap) (val : value) (depth : nat)
    : fmt string :=
  match fuel with
  | 0 => fun _ => None
  | S fuel' => formatBody (formatValue_fuel fuel' h) h val depth
  end.

(** [formatValue(val)] with the default arguments [depth = 0] and a fresh
    [seen].  Four nested activations always suffice (theorem
    [formatValue_fuel_enough] below), so the last arm is never taken. *)
Definition formatValue (h : heap) (val : value) : completion string :=
  match formatValue_fuel 4 h val 0 ∅ with
  | Some (c, _) => c
  | None => Throw VUndefined
  end.

(** *** [console.table] (lines 92-112) *)

(** Truthiness, for [row || {}], [row && row[h]] and [data && ...]. *)
Definition truthy (v : value) : bool :=
  match v with
  | VNull | VUndefined => false
  | VString s => negb (isEmpty s)
  | VNumber n | VBigInt n => negb (n =? 0)%Z
  | VBoolean b => b
  | VSymbol _ | VFunction _ | VRef _ => true
  end.

Definition indexKeys (n : nat) : list string :=
  map (fun i => decimal (Z.of_nat i)) (seq 0 n).

Definition keyIndex (k : string) (n : nat) : option nat :=
  find (fun i => String.eqb (decimal (Z.of_nat i)) k) (seq 0 n).

(** [Object.keys(v)] for a value that is neither null nor undefined. *)
Definition ownKeys (h : heap) (v : value) : list string :=
  match v with
  | VString s => indexKeys (length (utf16 s))
  | VRef a =>
      match h a with
      | OObject props => keysOf props
      | OArray _ elems => indexKeys (length elems)
      | _ => []
      end
  | _ => []
  end.

(** [v[k]] for an own enumerable property [k] of [v]. *)
Definition getOwn (h : heap) (v : value) (k : string) : completion value :=
  match v with
  | VString s =>
      match keyIndex k (length (utf16 s)) with
      | Some i => Normal (VString (nth i (utf16 s) EmptyString))
      | None => Normal VUndefined
      end
  | VRef a =>
      match h a with
      | OObject props => readProp props k
      | OArray _ elems =>
          match keyIndex k (length elems) with
          | Some i => Normal (nth i elems VUndefined)
          | None => Normal VUndefined
          end
      | _ => Normal VUndefined
      end
  | _ => Normal VUndefined
  end.

Fixpoint readAll (h : heap) (v : value) (keys : list string)
    : completion (list (string * value)) :=
  match keys with
  | [] => Normal []
  | k :: rest =>
      match getOwn h v k with
      | Throw e => Throw e
      | Normal x =>
          match readAll h v rest with
          | Throw e => Throw e
          | Normal xs => Normal ((k, x) :: xs)
          end
      end
  end.

(** [Object.entries(v)], which is also what a spread [...v] copies. *)
Definition ownEntries (h : heap) (v : value) : completion (list (string * value)) :=
  match v with
  | VNull | VUndefined => Normal []
  | _ => readAll h v (ownKeys h v)
  end.

(** A row is an element of the caller's array or one of the object
    literals that the normalisation creates. *)
Inductive row :=
| RowValue (v : value)
| RowLiteral (props : list (string * value)).

(** An array index in canonical form: such keys are enumerated first,
    in ascending order, before the other keys in creation order. *)
Definition digitValue (c : ascii) : option N :=
  let n := N_of_ascii c in
  if ((48 <=? n) && (n <=? 57))%N then Some (n - 48)%N else None.

Fixpoint parseDigits (s : string) (acc : N) : option N :=
  match s with
  | EmptyString => Some acc
  | String c rest =>
      match digitValue c with
      | Some d => parseDigits rest (acc * 10 + d)%N
      | None => None
      end
  end.

Definition arrayIndex (k : string) : option N :=
  match parseDigits k 0%N with
  | Some n =>
      if (n <? 4294967295)%N && String.eqb (decimal (Z.of_N n)) k
      then Some n else None
  | None => None
  end.

Fixpoint hasKey (k : string) (props : list (string * value)) : bool :=
  match props with
  | [] => false
  | (k', _) :: rest => String.eqb k' k || hasKey k rest
  end.

Fixpoint replaceKey (k : string) (v : value) (props : list (string * value))
    : list (string * value) :=
  match props with
  | [] => []
  | (k', v') :: rest =>
      if String.eqb k' k then (k, v) :: rest else (k', v') :: replaceKey k v rest
  end.

Fixpoint insertIndex (i : N) (k : string) (v : value)
    (props : list (string * value)) : list (string * value) :=
  match props with
  | [] => [(k, v)]
  | (k', v') :: rest =>
      match arrayIndex k' with
      | Some j =>
          if (j <? i)%N then (k', v') :: insertIndex i k v rest
          else (k, v) :: props
      | None => (k, v) :: props
      end
  end.

(** Defining a property of an object literal under construction: a key
    already present keeps its place and takes the new value. *)
Definition define (k : string) (v : value) (props : list (string * value))
    : list (string * value) :=
  if hasKey k props then replaceKey k v props
  else
    match arrayIndex k with
    | Some i => insertIndex i k v props
    | None => (props ++ [(k, v)])%list
    end.

(** [{ "(index)": k, ...v }] *)
Definition indexedRow (h : heap) (k : string) (v : value) : completion row :=
  match ownEntries h v with
  | Throw e => Throw e
  | Normal copied =>
      Normal (RowLiteral
                (foldl (fun props kv => define (fst kv) (snd kv) props)
                       [("(index)", VString k)] copied))
  end.

Fixpoint indexedRows (h : heap) (entries : list (string * value))
    : completion (list row) :=
  match entries with
  | [] => Normal []
  | (k, v) :: rest =>
      match indexedRow h k v with
      | Throw e => Throw e
      | Normal r =>
          match indexedRows h rest with
          | Throw e => Throw e
          | Normal rs => Normal (r :: rs)
          end
      end
  end.

(** Lines 94-101. *)
Definition normalize (h : heap) (data : value) : completion (list row) :=
  match data with
  | VRef a =>
      match h a with
      | OArray Array elems => Normal (map RowValue elems)
      | _ =>
          match ownEntries h data with
          | Throw e => Throw e
          | Normal entries => indexedRows h entries
          end
      end
  | _ => Normal [RowLiteral [("value", data)]]
  end.

(** [Object.keys(row || {})] *)
Definition rowKeys (h : heap) (r : row) : list string :=
  match r with
  | RowLiteral props => map fst props
  | RowValue v => if truthy v then ownKeys h v else []
  end.

(** What a read [v[k]] finds when [k] is not an own enumerable property
    of [v]: a non-enumerable own member ([length]), a member inherited
    through the prototype chain ([constructor]), [undefined] when there
    is none.  The read can be left by an exception ([caller] on a
    function of strict code).  This is the engine's; [ofLiteral] is the
    same for the object literals of lines 98 and 100, which inherit from
    [Object.prototype]. *)
Record members := {
  beyond : heap -> value -> string -> completion value;
  ofLiteral : string -> completion value
}.

(** [v[k]] for a value that is neither null nor undefined. *)
Definition get (M : members) (h : heap) (v : value) (k : string)
    : completion value :=
  if bool_decide (k ∈ ownKeys h v) then getOwn h v k else beyond M h v k.

(** [row && row[k]] *)
Definition rowCell (M : members) (h : heap) (r : row) (k : string)
    : completion value :=
  match r with
  | RowLiteral props =>
      match find (fun kv => String.eqb (fst kv) k) props with
      | Some kv => Normal (snd kv)
      | None => ofLiteral M k
      end
  | RowValue v => if truthy v then get M h v k else Normal v
  end.

(** [set.add(k)] on a Set of strings, kept in insertion order. *)
Definition setAdd (set : list string) (k : string) : list string :=
  if bool_decide (k ∈ set) then set else (set ++ [k])%list.

(** Lines 105-108: the keys of all rows, gathered into a Set. *)
Definition gatherKeys (h : heap) (rows : list row) : list string :=
  foldl (fun set r => foldl setAdd set (rowKeys h r)) [] rows.

(** Lines 103-108.  [columns] is [None] when the argument is missing or
    is not an array, and the list of its names when it is an array. *)
Definition resolveHeaders (h : heap) (rows : list row)
    (columns : option (list string)) : list string :=
  match columns with
  | Some (c :: cs) => c :: cs
  | _ => gatherKeys h rows
  end.

Fixpoint formatCells (M : members) (h : heap) (r : row) (headers : list string)
    : completion (list string) :=
  match headers with
  | [] => Normal []
  | k :: rest =>
      match rowCell M h r k with
      | Throw e => Throw e
      | Normal v =>
          match formatValue h v with
          | Throw e => Throw e
          | Normal s =>
              match formatCells M h r rest with
              | Throw e => Throw e
              | Normal ss => Normal (s :: ss)
              end
          end
      end
  end.

Fixpoint formatRows (M : members) (h : heap) (rows : list row)
    (headers : list string) : completion (list (list string)) :=
  match rows with
  | [] => Normal []
  | r :: rest =>
      match formatCells M h r headers with
      | Throw e => Throw e
      | Normal cells =>
          match formatRows M h rest headers with
          | Throw e => Throw e
          | Normal more => Normal (cells :: more)
          end
      end
  end.

(** [console.table(data, columns)]: the message it sends, or the
    exception that leaves it. *)
Definition consoleTable (M : members) (h : heap) (now : Z) (data : value)
    (columns : option (list string)) : completion message :=
  match normalize h data with
  | Throw e => Throw e
  | Normal rows =>
      let headers := resolveHeaders h rows columns in
      match formatRows M h rows headers with
      | Throw e => Throw e
      | Normal tableRows => Normal (MsgTable headers tableRows now)
      end
  end.

(** *** [resolveSpec] (lines 122-140) *)

Definition aliasMap : list (string * string) :=
  [ ("lodash", "lodash@latest/lodash.min.js");
    ("dayjs", "dayjs@latest/dayjs.min.js");
    ("rxjs", "rxjs@7/dist/bundles/rxjs.umd.min.js");
    ("ramda", "ramda@latest/dist/ramda.min.js");
    ("underscore", "underscore@latest/underscore-min.js");
    ("decimal.js", "decimal.js@latest/decimal.min.js");
    ("papaparse", "papaparse@latest/papaparse.min.js") ].

Definition nativeFunction (name : string) : string :=
  "function " +:+ name +:+ "() { [native code] }".

(** [map] is an object literal, so [map[name]] also finds what the
    literal inherits from [Object.prototype].  Each member is truthy and
    is listed with the text it takes inside a template literal (a native
    function as V8 prints it). *)
Definition objectPrototype : list (string * string) :=
  [ ("constructor", nativeFunction "Object");
    ("__defineGetter__", nativeFunction "__defineGetter__");
    ("__defineSetter__", nativeFunction "__defineSetter__");
    ("hasOwnProperty", nativeFunction "hasOwnProperty");
    ("__lookupGetter__", nativeFunction "__lookupGetter__");
    ("__lookupSetter__", nativeFunction "__lookupSetter__");
    ("isPrototypeOf", nativeFunction "isPrototypeOf");
    ("propertyIsEnumerable", nativeFunction "propertyIsEnumerable");
    ("toString", nativeFunction "toString");
    ("valueOf", nativeFunction "valueOf");
    ("__proto__", "[object Object]");
    ("toLocaleString", nativeFunction "toLocaleString") ].

Fixpoint assoc (table : list (string * string)) (k : string) : option string :=
  match table with
  | [] => None
  | (k', v) :: rest => if String.eqb k' k then Some v else assoc rest k
  end.

(** [map[name]], as text; [None] when the read yields [undefined]. *)
Definition mapGet (name : string) : option string :=
  match assoc aliasMap name with
  | Some path => Some path
  | None => assoc objectPrototype name
  end.

Definition cdn : string := "https://cdn.jsdelivr.net/npm/".

(** The test of line 124. *)
Definition isLocator (s : string) : bool :=
  startsWithIgnoreCase "http://" s || startsWithIgnoreCase "https://" s
  || startsWith "/" s || startsWith "./" s || startsWith "../" s.

Definition resolveSpec (spec : string) : string :=
  let s := trim spec in
  if isLocator s then s
  else
    let name := s in
    let path :=
      match mapGet name with
      | Some found => found
      | None => name +:+ "@latest"
      end in
    cdn +:+ path.

(** *** [evalCode] (lines 142-160)

    What a program text does when it runs belongs to the engine.  While
    it runs it can post messages of its own, through [console.*] or
    [postMessage]; awaited, an attempt settles with a heap and a
    completion, or stays pending for ever. *)

Inductive attempt :=
| Settled (posted : list message) (h : heap) (c : completion value)
| Pending (posted : list message).

(** How a call of an async function of the worker ends, with the
    messages posted meanwhile; a rejection is kept with the heap in
    which its reason lives. *)
Inductive run :=
| Fulfilled (sent : list message)
| Rejected (sent : list message) (h : heap) (e : value)
| Unsettled (sent : list message).


(** The messages [posted] came first. *)
Definition after (posted : list message) (r : run) : run :=
  match r with
  | Fulfilled sent => Fulfilled (posted ++ sent)
  | Rejected sent h e => Rejected (posted ++ sent) h e
  | Unsettled sent => Unsettled (posted ++ sent)
  end.

(** The [eval] of line 149 is a direct one: the text runs in the scope
    of [evalCode] and can assign to its parameters.  [binding] is what
    [postMessage] then makes of [id]: a string, another value that can
    be cloned, or a value that cannot (a function, a Symbol), with the
    exception that [postMessage] throws.  Of [code] the program needs
    the text that the template literal of line 153 makes of it. *)
Inductive binding :=
| IdText (s : string)
| IdOther
| IdUncloneable (fault : value).

(** A text that rebinds what [evalCode] goes on to call ([send],
    [formatValue] or [ts], which are bindings of the enclosing scopes,
    by an assignment or a [var] of its own) replaces the program
    described here: how the call then goes on is the engine's. *)
Inductive direct :=
| Direct (a : attempt) (id : binding) (code : completion string)
| Replaced (rest : run).

Record engine := {
  eval_ : string -> string -> direct;   (* await eval(code), given id and code *)
  asyncFunction : string -> attempt     (* await new AsyncFunction(body)() *)
}.

(** [send(type, { id, ... })] *)
Definition send (id : binding) (payload : option string -> message)
    : completion message :=
  match id with
  | IdText s => Normal (payload (Some s))
  | IdOther => Normal (payload None)
  | IdUncloneable fault => Throw fault
  end.

(** The handler of the outer [try] (line 158). *)
Definition reportFault (h : heap) (now : Z) (id : binding) (err : value) : run :=
  match formatValue h err with
  | Throw e => Rejected [] h e
  | Normal text =>
      match send id (fun i => MsgError i text now) with
      | Normal msg => Fulfilled [msg]
      | Throw e => Rejected [] h e
      end
  end.

(** Line 156, inside the outer [try]. *)
Definition reportResult (h : heap) (now : Z) (id : binding) (result : value) : run :=
  match formatValue h result with
  | Throw e => reportFault h now id e
  | Normal text =>
      match send id (fun i => MsgResult i text now) with
      | Normal msg => Fulfilled [msg]
      | Throw e => reportFault h now id e
      end
  end.

Definition useStrict (code : string) : string :=
  quote +:+ "use strict" +:+ quote +:+ ";" +:+ newline +:+ code.

Definition evalCode (E : engine) (now : Z) (id code : string) : run :=
  match eval_ E id code with
  | Replaced rest => rest
  | Direct (Pending posted) _ _ => Unsettled posted
  | Direct (Settled posted h (Normal result)) id' _ =>
      after posted (reportResult h now id' result)
  | Direct (Settled posted h (Throw _)) id' code' =>
      match code' with
      | Throw e => after posted (reportFault h now id' e)
      | Normal text =>
          match asyncFunction E (useStrict text) with
          | Pending posted' => Unsettled (posted ++ posted')
          | Settled posted' h' (Normal result) =>
              after (posted ++ posted') (reportResult h' now id' result)
          | Settled posted' h' (Throw err) =>
              after (posted ++ posted') (reportFault h' now id' err)
          end
      end
  end.

(** *** [self.onunhandledrejection] (lines 114-116) *)
Definition onunhandledrejection (h : heap) (now : Z) (reason : value)
    : completion message :=
  match formatValue h reason with
  | Normal text => Normal (MsgError None ("Unhandled Rejection: " +:+ text) now)
  | Throw e => Throw e
  end.

(** *** [self.onmessage] (lines 162-176)

    [importScripts] is the engine's: fetching and running the script at a
    locator settles normally, or with what was thrown, or not at all,
    and the script can post messages while it runs. *)

(** The branch [data.type === "load"] (lines 166-174). *)
Definition load (importScripts : string -> attempt) (now : Z) (spec : string) : run :=
  let url := resolveSpec spec in
  match importScripts url with
  | Pending posted => Unsettled posted
  | Settled posted _ (Normal _) =>
      Fulfilled (posted ++ [MsgConsole "info" ("loaded: " +:+ url) now])
  | Settled posted h (Throw e) =>
      match formatValue h e with
      | Normal text =>
          Fulfilled (posted ++ [MsgError None ("load failed: " +:+ text) now])
      | Throw e' => Rejected posted h e'
      end
  end.

(** The async handler itself. *)
Definition handler (E : engine) (importScripts : string -> attempt) (now : Z)
    (data : request) : run :=
  match data with
  | ReqEval id code => evalCode E now id code
  | ReqLoad spec => load importScripts now spec
  | ReqOther => Fulfilled []
  end.

(** How the worker is left once a message has been handled: the handler
    has returned, or it waits for ever, or an exception has left the
    handler of the rejection as well and goes to [self.onerror], whose
    report is the engine's. *)
Inductive reaction :=
| Done (sent : list message)
| Waiting (sent : list message)
| Uncaught (sent : list message) (e : value).

Definition sentIn (r : reaction) : list message :=
  match r with
  | Done sent | Waiting sent | Uncaught sent _ => sent
  end.

(** Nothing awaits the promise of the handler: when it is rejected, the
    engine calls [self.onunhandledrejection] with the reason, at the
    time [later]. *)
Definition onmessage (E : engine) (importScripts : string -> attempt)
    (now later : Z) (data : request) : reaction :=
  match handler E importScripts now data with
  | Fulfilled sent => Done sent
  | Unsettled sent => Waiting sent
  | Rejected sent h reason =>
      match onunhandledrejection h later reason with
      | Normal msg => Done (sent ++ [msg])
      | Throw e => Uncaught sent e
      end
  end.

End Worker.

(** ** The terminal page: the handler of worker messages *)

Module Terminal.

Inductive line :=
| LineConsole (method formatted : string) (ts : Z)
| LineTable (headers : list string) (rows : list (list string)) (ts : Z)
| LineResult (formatted : string) (ts : Z) (ms : option Z)
| LineError (formatted : string) (ts : Z).

Inductive statusText :=
| StatusText (text : string)
| StatusDone (ms : Z).          (* `done in ${ms} ms` *)

(** [pending] maps an id to the reading of [performance.now()] at
    submission; readings are counted in a fixed unit of time. *)
Record terminal := {
  pending : gmap string Z;
  output : list line;
  status : statusText
}.

Definition appendLine (l : line) (t : terminal) : terminal :=
  {| pending := pending t; output := output t ++ [l]; status := status t |}.
Definition setStatus (s : statusText) (t : terminal) : terminal :=
  {| pending := pending t; output := output t; status := s |}.
Definition forget (id : string) (t : terminal) : terminal :=
  {| pending := delete id (pending t); output := output t; status := status t |}.

Definition initial : terminal :=
  {| pending := ∅; output := []; status := StatusText EmptyString |}.

(** The end of [run] (lines 188-191), which registers a submission under
    the id drawn for it. *)
Definition submit (id : string) (now : Z) (t : terminal) : terminal :=
  {| pending := <[id := now]> (pending t);
     output := output t;
     status := StatusText "running ..." |}.

(** [w.onmessage] (lines 19-56); [now] is [performance.now()]. *)
Definition onmessage (now : Z) (msg : message) (t : terminal) : terminal :=
  match msg with
  | MsgReady => setStatus (StatusText "sandbox ready") t
  | MsgConsole method formatted ts => appendLine (LineConsole method formatted ts) t
  | MsgTable headers rows ts => appendLine (LineTable headers rows ts) t
  | MsgResult id formatted ts =>
      match id with
      | Some i =>
          match pending t !! i with
          | Some startedAt =>
              let ms := Z.max 0 (now - startedAt) in
              setStatus (StatusDone ms)
                (forget i (appendLine (LineResult formatted ts (Some ms)) t))
          | None => appendLine (LineResult formatted ts None) t
          end
      | None => appendLine (LineResult formatted ts None) t
      end
  | MsgError _ formatted ts =>
      setStatus (StatusText "error") (appendLine (LineError formatted ts) t)
  | MsgClear =>
      {| pending := pending t; output := []; status := status t |}
  | MsgStatus text => setStatus (StatusText text) t
  | MsgOther => t
  end.

(** *** [esc] (lines 75-80) *)

(** [s.replace(/c/g, by)] for a one-character pattern. *)
Fixpoint replaceAll (c : ascii) (by_ : string) (s : string) : string :=
  match s with
  | EmptyString => EmptyString
  | String x rest =>
      if Ascii.eqb x c then by_ +:+ replaceAll c by_ rest
      else String x (replaceAll c by_ rest)
  end.

Definition esc (str : string) : string :=
  replaceAll ">" "&gt;" (replaceAll "<" "&lt;" (replaceAll "&" "&amp;" str)).

(** *** [renderTable] (lines 99-114)

    The markup handed to [appendLine]; [tsString] is the locale's text of
    a time stamp. *)
Definition attr (name value : string) : string :=
  name +:+ "=" +:+ quote +:+ value +:+ quote.

Definition renderTable (tsString : Z -> string) (headers : list string)
    (rows : list (list string)) (ts : Z) : string :=
  let head := join EmptyString (map (fun h => "<th>" +:+ esc h +:+ "</th>") headers) in
  let body :=
    join EmptyString
      (map (fun r =>
              "<tr>"
              +:+ join EmptyString (map (fun c => "<td>" +:+ esc c +:+ "</td>") r)
              +:+ "</tr>")
           rows) in
  let html :=
    "<div " +:+ attr "class" "table-wrap" +:+ ">" +:+ newline
    +:+ "      <table " +:+ attr "class" "console-table" +:+ " "
    +:+ attr "aria-label" "console table" +:+ ">" +:+ newline
    +:+ "        <thead><tr>" +:+ head +:+ "</tr></thead>" +:+ newline
    +:+ "        <tbody>" +:+ body +:+ "</tbody>" +:+ newline
    +:+ "      </table>" +:+ newline
    +:+ "    </div>" in
  "<span " +:+ attr "class" "tag" +:+ ">[" +:+ esc (tsString ts)
  +:+ "] TABLE</span><div " +:+ attr "class" "content" +:+ ">" +:+ html +:+ "</div>".

(** *** The page: commands, submissions and the history keys

    [outbox] holds what was posted to the current worker, oldest first;
    [workers] counts the workers created. *)
Record page := {
  term : terminal;
  history : list string;
  historyIndex : nat;
  input : string;
  outbox : list request;
  workers : nat
}.

Definition withTerm (f : terminal -> terminal) (p : page) : page :=
  {| term := f (term p); history := history p; historyIndex := historyIndex p;
     input := input p; outbox := outbox p; workers := workers p |}.

Definition post (r : request) (p : page) : page :=
  {| term := term p; history := history p; historyIndex := historyIndex p;
     input := input p; outbox := outbox p ++ [r]; workers := workers p |}.

(** The output is emptied: the Clear button and the [.clear] command. *)
Definition clearOutput (p : page) : page :=
  withTerm (fun t => {| pending := pending t; output := []; status := status t |}) p.

(** [worker.terminate(); worker = createWorker(); setStatus("sandbox reset")] *)
Definition resetWorker (p : page) : page :=
  {| term := setStatus (StatusText "sandbox reset") (term p);
     history := history p; historyIndex := historyIndex p;
     input := input p; outbox := []; workers := S (workers p) |}.

(** [s.split(/\s+/)] *)
Fixpoint splitGo (fuel : nat) (cur s : string) : list string :=
  match fuel with
  | 0 => [cur]
  | S fuel' =>
      match s with
      | EmptyString => [cur]
      | String c rest =>
          match stripAny whiteSpace s with
          | Some s' =>
              cur :: splitGo fuel' EmptyString
                       (stripAll whiteSpace (String.length s') s')
          | None => splitGo fuel' (cur +:+ String c EmptyString) rest
          end
      end
  end.

Definition split (s : string) : list string :=
  splitGo (S (String.length s)) EmptyString s.

(** [s.padStart(3, " ")] *)
Definition padStart3 (s : string) : string :=
  match String.length s with
  | 0 => "   " +:+ s
  | 1 => "  " +:+ s
  | 2 => " " +:+ s
  | _ => s
  end.

Definition helpText : string :=
  join newline
    [ ".help                      show this help";
      ".clear                     clear output";
      ".reset                     reset sandbox";
      ".load <url|name>           load script into sandbox (UMD/CommonJS compatible)";
      ".history                   print input history" ].

(** [commandHelp] (lines 131-140); [wall] is the time of the rendering. *)
Definition commandHelp (wall : Z) (p : page) : page :=
  withTerm (appendLine (LineConsole "info" ("<pre>" +:+ esc helpText +:+ "</pre>") wall)) p.

Definition numbered (entries : list string) : list string :=
  imap (fun i entry => padStart3 (decimal (Z.of_nat (i + 1))) +:+ "  " +:+ entry)
       entries.

(** [handleCommand] (lines 142-175) *)
Definition handleCommand (wall : Z) (cmdline : string) (p : page) : page :=
  match split (trim cmdline) with
  | [] => p
  | cmd :: rest =>
      if String.eqb cmd ".help" then commandHelp wall p
      else if String.eqb cmd ".clear" then clearOutput p
      else if String.eqb cmd ".reset" then resetWorker p
      else if String.eqb cmd ".load" then
        let spec := join " " rest in
        if isEmpty spec then
          withTerm (appendLine (LineError "usage: .load <url|name>" wall)) p
        else
          withTerm (setStatus (StatusText ("loading " +:+ spec +:+ " ...")))
                   (post (ReqLoad spec) p)
      else if String.eqb cmd ".history" then
        let body := join newline (numbered (history p)) in
        withTerm (appendLine (LineConsole "info" ("<pre>" +:+ esc body +:+ "</pre>") wall)) p
      else
        withTerm (appendLine (LineError ("unknown command: " +:+ esc cmd) wall)) p
  end.

(** [history.slice(-300)] after the push, when the list has outgrown 300. *)
Definition capped (entries : list string) : list string :=
  if 300 <? length entries then drop (length entries - 300) entries else entries.

(** [run] (lines 177-192); [id] is the token drawn for the submission,
    [now] the reading of [performance.now()].  The write to the local
    storage is taken to succeed. *)
Definition run (id : string) (now wall : Z) (code : string) (p : page) : page :=
  if isEmpty (trim code) then p
  else if startsWith "." (trim code) then handleCommand wall code p
  else
    let entries := capped (history p ++ [code]) in
    {| term := submit id now (term p);
       history := entries;
       historyIndex := length entries;
       input := input p;
       outbox := outbox p ++ [ReqEval id code];
       workers := workers p |}.

(** [history[historyIndex]], or the empty text where there is none. *)
Definition recall (entries : list string) (i : nat) : string :=
  match entries !! i with
  | Some entry => entry
  | None => EmptyString
  end.

(** The ArrowUp branch of the key handler (lines 219-227), taken when the
    caret is at the very start of the input. *)
Definition arrowUp (p : page) : page :=
  if 0 <? historyIndex p then
    let i := historyIndex p - 1 in
    {| term := term p; history := history p; historyIndex := i;
       input := recall (history p) i; outbox := outbox p; workers := workers p |}
  else p.

(** The ArrowDown branch (lines 228-238), taken when the caret is at the
    very end of the input. *)
Definition arrowDown (p : page) : page :=
  if historyIndex p + 1 <? length (history p) then
    let i := historyIndex p + 1 in
    {| term := term p; history := history p; historyIndex := i;
       input := recall (history p) i; outbox := outbox p; workers := workers p |}
  else
    {| term := term p; history := history p; historyIndex := length (history p);
       input := EmptyString; outbox := outbox p; workers := workers p |}.


(** *** What happens to the page (lines 194-239 and 19-56)

    The Tab key, which only edits the input, counts as [Typed]. *)
Inductive event :=
| Typed (text : string)
| Submitted (id : string) (now wall : Z)   (* Shift+Enter, or the Run button *)
| KeyUp                                    (* ArrowUp, caret at the start *)
| KeyDown                                  (* ArrowDown, caret at the end *)
| ClearClicked
| ResetClicked
| Delivered (now : Z) (msg : message).

Definition handle (e : event) (p : page) : page :=
  match e with
  | Typed text =>
      {| term := term p; history := history p; historyIndex := historyIndex p;
         input := text; outbox := outbox p; workers := workers p |}
  | Submitted id now wall => run id now wall (input p) p
  | KeyUp => arrowUp p
  | KeyDown => arrowDown p
  | ClearClicked => clearOutput p
  | ResetClicked => resetWorker p
  | Delivered now msg => withTerm (onmessage now msg) p
  end.

Definition handleAll (events : list event) (p : page) : page :=
  foldl (fun p e => handle e p) p events.

End Terminal.


(** ** Notions used by the statements *)

Import Worker.
Import Terminal.

(** [P] relates the [seen] set before a computation to the set after it. *)
Definition stepwise {T} (P : gset addr -> gset addr -> Prop) (m : fmt T) : Prop :=
  forall s c s', m s = Some (c, s') -> P s s'.
Definition grows {T} (m : fmt T) : Prop := stepwise subseteq m.
Definition refines {T} (m m' : fmt T) : Prop :=
  forall s r, m s = Some r -> m' s = Some r.
Definition answers {T} (m : fmt T) : Prop := forall s, is_Some (m s).
Definition returns {T} (m : fmt T) : Prop :=
  forall s c s', m s = Some (c, s') -> exists a, c = Normal a.

(** [m], refused outside the states that contain [a]. *)
Definition guarded {T} (a : addr) (m : fmt T) : fmt T :=
  fun s => if bool_decide (a ∈ s) then m s else None.
Definition agreeFrom {T} (a : addr) (m m' : fmt T) : Prop :=
  forall s, a ∈ s -> m s = m' s.

(** A callback that, on the values of interest, leaves [seen] alone and
    returns the text [g v]. *)
Definition pureOn (vs : list value) (f : value -> fmt string) (g : value -> string)
    : Prop :=
  Forall (fun v => forall s, f v s = Some (Normal (g v), s)) vs.

Definition marker (truncated : bool) : list string :=
  if truncated then ["…"] else [].

Definition numberText (v : value) : string :=
  match v with
  | VNumber n => decimal n
  | _ => EmptyString
  end.

(** The values whose members [formatValue] enumerates, and those among
    them that it records in [seen]. *)
Definition composite (o : object) : bool :=
  match o with
  | OArray _ _ | ODetached _ _ | OMap _ | OSet _ | OObject _ => true
  | _ => false
  end.
Definition tracked (o : object) : bool :=
  match o with
  | OMap _ | OSet _ | OObject _ => true
  | _ => false
  end.

Definition circularMarker (o : object) : string :=
  match o with
  | OMap _ => "[Circular Map]"
  | OSet _ => "[Circular Set]"
  | _ => "[Circular]"
  end.

(** What stands for a composite value below the depth bound. *)
Definition collapsed (o : object) : string :=
  match o with
  | OArray k elems => arrayTag k +:+ "(" +:+ lengthText elems +:+ ") […]"
  | ODetached k _ => arrayTag k +:+ "(0) […]"
  | OMap _ => "Map(…)"
  | OSet _ => "Set(…)"
  | _ => "{…}"
  end.

(** Nothing that the formatter reads or converts completes abruptly: no
    accessor of a plain object, no name of a function, no name, message
    or stack of an Error, and no typed array or view is on a detached
    buffer. *)
Definition quietValue (v : value) : Prop :=
  match v with
  | VFunction (Fails _) => False
  | _ => True
  end.
Definition quietProp (p : prop) : Prop :=
  match p with
  | Data v | Getter (Normal v) => quietValue v
  | Getter (Throw _) => False
  end.
Definition quietObject (o : object) : Prop :=
  match o with
  | OError (Normal _) (Normal _) (Falsy | Text _) => True
  | OError _ _ _ => False
  | ODetached _ _ => False
  | ODataView (Throw _) => False
  | OArray _ elems => Forall quietValue elems
  | OMap entries => Forall (fun kv => quietValue (fst kv) /\ quietValue (snd kv)) entries
  | OSet members => Forall quietValue members
  | OObject props => Forall (fun kp => quietProp (snd kp)) props
  | _ => True
  end.
Definition quiet (h : heap) : Prop := forall a, quietObject (h a).

(** The values [vs], formatted by [f] one after the other from the state
    [s] of [seen], give the texts [ts] and leave the state [s']. *)
Inductive inTurn {A B} (f : A -> fmt B)
    : list A -> gset addr -> list B -> gset addr -> Prop :=
| inTurn_nil s : inTurn f [] s [] s
| inTurn_cons v vs s t s1 ts s2 :
    f v s = Some (Normal t, s1) -> inTurn f vs s1 ts s2 ->
    inTurn f (v :: vs) s (t :: ts) s2.

(** What a read of the property finds. *)
Definition held (p : prop) : completion value :=
  match p with
  | Data v => Normal v
  | Getter c => c
  end.

(** The keys and the values of a Map in the order in which the loop of
    lines 31-34 formats them, and the parts made of their texts. *)
Fixpoint flat (entries : list (value * value)) : list value :=
  match entries with
  | [] => []
  | (k, v) :: rest => k :: v :: flat rest
  end.
Fixpoint arrows (texts : list string) : list string :=
  match texts with
  | k :: v :: rest => (k +:+ " => " +:+ v) :: arrows rest
  | _ => []
  end.

(** The parts of a plain object: each key with the text of its value. *)
Definition labelled (keys texts : list string) : list string :=
  zip_with (fun k t => JSON_stringify k +:+ ": " +:+ t) keys texts.

(** The texts of the four kinds of container, given the texts of their
    members. *)
Definition arrayText (k : arrayKind) (elems : list value) (parts : list string)
    : string :=
  arrayTag k +:+ "(" +:+ lengthText elems +:+ ") "
  +:+ ("[" +:+ join ", " parts
       +:+ (if 50 <? length elems then ", …" else EmptyString) +:+ "]").
Definition setText (members : list value) (parts : list string) : string :=
  "Set(" +:+ lengthText members +:+ ") { "
  +:+ join ", " (parts ++ marker (51 <=? length members))%list +:+ " }".
Definition mapText (entries : list (value * value)) (texts : list string)
    : string :=
  "Map(" +:+ lengthText entries +:+ ") { "
  +:+ join ", " (arrows texts ++ marker (51 <=? length entries))%list +:+ " }".
Definition objectText (props : list (string * prop)) (texts : list string)
    : string :=
  "{ "
  +:+ join ", " (labelled (keysOf (take 50 props)) texts
                 ++ marker (50 <? length props))%list
  +:+ " }".

(** [w] occurs in the value graph of [v]: it is [v], or it occurs in a
    member of the array-like, Map, Set or plain object that [v] names. *)
Definition membersOf (o : object) : list value :=
  match o with
  | OArray _ elems => elems
  | OMap entries => flat entries
  | OSet members => members
  | OObject props =>
      omap (fun kp => match held (snd kp) with
                      | Normal v => Some v
                      | Throw _ => None
                      end) props
  | _ => []
  end.
Inductive occursIn (h : heap) : value -> value -> Prop :=
| occurs_here v : occursIn h v v
| occurs_below a m w :
    m ∈ membersOf (h a) -> occursIn h m w -> occursIn h (VRef a) w.

(** An integer that a Number holds exactly and prints in full. *)
Definition safeInteger (z : Z) : Prop := (- 2 ^ 53 < z < 2 ^ 53)%Z.

(** Keys in the order in which they are first seen. *)
Fixpoint firstSeen (ks : list string) : list string :=
  match ks with
  | [] => []
  | k :: rest => k :: filter (fun k' => k' <> k) (firstSeen rest)
  end.

(** Writing expected texts: an apostrophe stands for a double quote. *)
Fixpoint qq (s : string) : string :=
  match s with
  | EmptyString => EmptyString
  | String c rest =>
      String (if Ascii.eqb c "'"%char then "034"%char else c) (qq rest)
  end.

(** The numbers [0] to [n - 1], and their texts. *)
Definition numbers (n : nat) : list value :=
  map (fun i => VNumber (Z.of_nat i)) (seq 0 n).
Definition rendered (n : nat) : list string :=
  map (fun i => decimal (Z.of_nat i)) (seq 0 n).

(** What [console.table] puts into a cell: the formatter's text of
    [row && row[k]]. *)
Definition cellText (M : members) (h : heap) (r : row) (k text : string) : Prop :=
  exists v, rowCell M h r k = Normal v /\ formatValue h v = Normal text.
Definition tableText (M : members) (h : heap) (rows : list row)
    (headers : list string) (cells : list (list string)) : Prop :=
  Forall2 (fun r line => Forall2 (cellText M h r) headers line) rows cells.

(** Every read beyond the own enumerable properties returns, and what it
    returns can be formatted. *)
Definition quietMembers (M : members) : Prop :=
  (forall h v k, exists w, beyond M h v k = Normal w /\ quietValue w)
  /\ (forall k, exists w, ofLiteral M k = Normal w /\ quietValue w).

(** Plain objects as an object literal creates them: of what they
    inherit from [Object.prototype], the member [constructor] is given;
    where nothing is inherited a read finds [undefined]. *)
Definition inheritsFromObject : members :=
  {| beyond := fun _ _ k =>
                 if String.eqb k "constructor" then Normal (VFunction (Text "Object"))
                 else Normal VUndefined;
     ofLiteral := fun k =>
                    if String.eqb k "constructor" then Normal (VFunction (Text "Object"))
                    else Normal VUndefined |}.

(** *** Sample heaps *)

(** [a = []; a.push(a)] *)
Definition cyclicArray : heap := fun _ => OArray Array [VRef 0].

(** [o = {}; o.self = o] *)
Definition cyclicObject : heap := fun _ => OObject [("self", Data (VRef 0))].

(** [o = {}; [o, o]] at address 0. *)
Definition sharedPair : heap :=
  fun a => match a with
           | 0 => OArray Array [VRef 1; VRef 1]
           | _ => OObject []
           end.

(** [o = {}; [[[[o]]], o]] at address 0, with [o] at address 4. *)
Definition sharedBelow : heap :=
  fun a => match a with
           | 0 => OArray Array [VRef 1; VRef 4]
           | 1 => OArray Array [VRef 2]
           | 2 => OArray Array [VRef 3]
           | 3 => OArray Array [VRef 4]
           | _ => OObject []
           end.

(** [o = {}; ({a: {b: {c: o, d: o}}})] at address 0. *)
Definition sharedDeep : heap :=
  fun a => match a with
           | 0 => OObject [("a", Data (VRef 1))]
           | 1 => OObject [("b", Data (VRef 2))]
           | 2 => OObject [("c", Data (VRef 3)); ("d", Data (VRef 3))]
           | _ => OObject []
           end.

(** [new Set([0, ..., 50])] at 0, [new Map([[0, 0], ..., [50, 50]])] at 1,
    [[0, ..., 50]] at 2 and an object with the keys ["0"] to ["50"] at 3. *)
Definition fiftyOne : heap :=
  fun a => match a with
           | 0 => OSet (numbers 51)
           | 1 => OMap (map (fun v => (v, v)) (numbers 51))
           | 2 => OArray Array (numbers 51)
           | _ => OObject (map (fun i => (decimal (Z.of_nat i), Data (VNumber (Z.of_nat i))))
                               (seq 0 51))
           end.



(** [[{a: 1, b: 2}, {a: 3, b: 4}]] at address 0. *)
Definition twoRows : heap :=
  fun a => match a with
           | 0 => OArray Array [VRef 1; VRef 2]
           | 1 => OObject [("a", Data (VNumber 1)); ("b", Data (VNumber 2))]
           | _ => OObject [("a", Data (VNumber 3)); ("b", Data (VNumber 4))]
           end.


(** *** Sample engines *)











(** *** A sample terminal: the submission ["s1"], made at time 100. *)
Definition oneRunning : terminal := submit "s1" 100 initial.

(** ** Notions for the further properties *)

(** [m] preserves the property [Q] of the [seen] set. *)
Definition keeps {T} (Q : gset addr -> Prop) (m : fmt T) : Prop :=
  forall s c s', m s = Some (c, s') -> Q s -> Q s'.

(** Only Maps, Sets and plain objects are in the set. *)
Definition onlyTracked (h : heap) (s : gset addr) : Prop :=
  forall a, a ∈ s -> tracked (h a) = true.

(** Plain data used in the statements about collections: numbers, pairs
    of numbers, and properties holding numbers. *)
Definition numberEntries (zs : list (Z * Z)) : list (value * value) :=
  map (fun kv => (VNumber (fst kv), VNumber (snd kv))) zs.
Definition numberProps (kzs : list (string * Z)) : list (string * prop) :=
  map (fun kz => (fst kz, Data (VNumber (snd kz)))) kzs.
Definition entryText (kv : Z * Z) : string :=
  decimal (fst kv) +:+ " => " +:+ decimal (snd kv).
Definition propText (kz : string * Z) : string :=
  JSON_stringify (fst kz) +:+ ": " +:+ decimal (snd kz).

(** [new Uint8Array([1, 2, 3])] at 0, [new Set()] at 1, [new Map([[1, 2]])]
    at 2 and [{a: 1, b: 2}] elsewhere. *)
Definition smallOnes : heap :=
  fun a => match a with
           | 0 => OArray Uint8Array (map VNumber [1; 2; 3]%Z)
           | 1 => OSet (map VNumber [])
           | 2 => OMap (numberEntries [(1, 2)]%Z)
           | _ => OObject (numberProps [("a", 1); ("b", 2)]%Z)
           end.


(** [[null, {a: 1}, {b: 2}]] at address 0. *)
Definition raggedRows : heap :=
  fun a => match a with
           | 0 => OArray Array [VNull; VRef 1; VRef 2]
           | 1 => OObject [("a", Data (VNumber 1))]
           | _ => OObject [("b", Data (VNumber 2))]
           end.

(** A text that neither starts nor ends with white space. *)
Definition nonEmpty (t : string) : Prop := t <> EmptyString.
Definition trimmed (s : string) : Prop :=
  stripAny whiteSpace s = None
  /\ stripAny (map String.rev whiteSpace) (String.rev s) = None.


(** What [esc] writes for one character, a text rewritten character by
    character, and the number of times a character occurs in a text. *)
Definition entity (c : ascii) : string :=
  if Ascii.eqb c "&" then "&amp;"
  else if Ascii.eqb c "<" then "&lt;"
  else if Ascii.eqb c ">" then "&gt;"
  else String c EmptyString.

Fixpoint eachChar (f : ascii -> string) (s : string) : string :=
  match s with
  | EmptyString => EmptyString
  | String c rest => f c +:+ eachChar f rest
  end.

Fixpoint occurrences (c : ascii) (s : string) : nat :=
  match s with
  | EmptyString => 0
  | String x rest => (if Ascii.eqb x c then 1 else 0) + occurrences c rest
  end.

(** [e] is a submission under [id], or the delivery of a Result for it. *)
Definition concerns (id : string) (e : event) : bool :=
  match e with
  | Submitted i _ _ => String.eqb i id
  | Delivered _ (MsgResult (Some i) _ _) => String.eqb i id
  | _ => false
  end.

(** A page with one earlier entry in its history and one submission,
    [s1], in flight since 100. *)
Definition busyPage : page :=
  {| term := oneRunning; history := ["1 + 1"]; historyIndex := 1;
     input := EmptyString; outbox := [ReqEval "s1" "1 + 1"]; workers := 1 |}.



(* ================================================================== *)
(** * Part II: properties                                              *)
(* ================================================================== *)

(** ** The formatter's monad

    Three facts are needed of every combinator: more fuel never changes an
    answer ([refines]), a computation whose parts answer does answer
    ([answers]), and the [seen] set only grows ([grows]). *)

Lemma refines_refl {T} (m : fmt T) : refines m m.
Proof. by intros s r. Qed.

Lemma ret_answers {T} (a : T) : answers (ret a).
Proof. intros s. by eexists. Qed.

Lemma ret_grows {T} (a : T) : grows (ret a).
Proof. by intros s c s' [= <- <-]. Qed.

Lemma lift_answers {T} (c : completion T) : answers (lift c).
Proof. intros s. destruct c; by eexists. Qed.

Lemma lift_grows {T} (c : completion T) : grows (lift c).
Proof. destruct c; by intros s c' s' [= <- <-]. Qed.

Lemma raise_answers {T} (e : value) : answers (raise e : fmt T).
Proof. intros s. by eexists. Qed.

Lemma raise_grows {T} (e : value) : grows (raise e : fmt T).
Proof. by intros s c s' [= <- <-]. Qed.

(** The activations that make no recursive call are built from [ret],
    [lift], [raise] and [bind] and the test of the depth: [step] proves
    one of them, [leaf] all of them. *)
Ltac leaf step :=
  try solve
    [ repeat first
        [ step
        | match goal with |- context [2 <? ?d] => destruct (2 <? d) end ] ].

Section Combinators.

Context {A B : Type}.

Lemma bind_refines (m m' : fmt A) (k k' : A -> fmt B) :
  refines m m' -> (forall a, refines (k a) (k' a)) -> refines (bind m k) (bind m' k').
Proof.
  intros Hm Hk s r. unfold bind.
  destruct (m s) as [[[a|e] s1]|] eqn:E; [| |done]; rewrite (Hm _ _ E); [|done].
  apply Hk.
Qed.

Lemma bind_answers (m : fmt A) (k : A -> fmt B) :
  answers m -> (forall a, answers (k a)) -> answers (bind m k).
Proof.
  intros Hm Hk s. unfold bind.
  destruct (Hm s) as [[[a|e] s1] ->]; [apply Hk | by eexists].
Qed.

Lemma bind_grows (m : fmt A) (k : A -> fmt B) :
  grows m -> (forall a, grows (k a)) -> grows (bind m k).
Proof.
  intros Hm Hk s c s'. unfold bind.
  destruct (m s) as [[[a|e] s1]|] eqn:E; [| |done]; pose proof (Hm _ _ _ E) as H1.
  - intros H2%Hk. set_solver.
  - by intros [= <- <-].
Qed.

End Combinators.

Section MapM.

Context {A B : Type}.

Lemma mapM_refines (f g : A -> fmt B) (xs : list A) :
  (forall x, refines (f x) (g x)) -> refines (mapM f xs) (mapM g xs).
Proof.
  intros Hfg. induction xs as [|x xs IH]; simpl; [apply refines_refl|].
  apply bind_refines; [apply Hfg|]. intros y.
  apply bind_refines; [apply IH|]. intros ys. apply refines_refl.
Qed.

Lemma mapM_answers (f : A -> fmt B) (xs : list A) :
  (forall x, answers (f x)) -> answers (mapM f xs).
Proof.
  intros Hf. induction xs as [|x xs IH]; simpl; [apply ret_answers|].
  apply bind_answers; [apply Hf|]. intros y.
  apply bind_answers; [apply IH|]. intros ys. apply ret_answers.
Qed.

Lemma mapM_grows (f : A -> fmt B) (xs : list A) :
  (forall x, grows (f x)) -> grows (mapM f xs).
Proof.
  intros Hf. induction xs as [|x xs IH]; simpl; [apply ret_grows|].
  apply bind_grows; [apply Hf|]. intros y.
  apply bind_grows; [apply IH|]. intros ys. apply ret_grows.
Qed.

End MapM.

Lemma seenHas_answers a : answers (seenHas a).
Proof. intros s. by eexists. Qed.
Lemma seenHas_grows a : grows (seenHas a).
Proof. by intros s c s' [= <- <-]. Qed.
Lemma seenAdd_answers a : answers (seenAdd a).
Proof. intros s. by eexists. Qed.
Lemma seenAdd_grows a : grows (seenAdd a).
Proof. intros s c s' [= <- <-]. set_solver. Qed.

(** The two loops behave like [mapM] in these respects. *)

Section Loops.

Variables f g : value -> fmt string.

Lemma mapLoop_refines (entries : list (value * value)) :
  (forall x, refines (f x) (g x)) ->
  forall i parts, refines (mapLoop f entries i parts) (mapLoop g entries i parts).
Proof.
  intros Hfg. induction entries as [|[k v] rest IH]; intros i parts; simpl;
    [apply refines_refl|].
  apply bind_refines; [apply Hfg|]. intros sk.
  apply bind_refines; [apply Hfg|]. intros sv.
  destruct (50 <? S i); [apply refines_refl | apply IH].
Qed.

Lemma setLoop_refines (members : list value) :
  (forall x, refines (f x) (g x)) ->
  forall i parts, refines (setLoop f members i parts) (setLoop g members i parts).
Proof.
  intros Hfg. induction members as [|v rest IH]; intros i parts; simpl;
    [apply refines_refl|].
  apply bind_refines; [apply Hfg|]. intros sv.
  destruct (50 <? S i); [apply refines_refl | apply IH].
Qed.

Lemma mapLoop_answers (entries : list (value * value)) :
  (forall x, answers (f x)) ->
  forall i parts, answers (mapLoop f entries i parts).
Proof.
  intros Hf. induction entries as [|[k v] rest IH]; intros i parts; simpl;
    [apply ret_answers|].
  apply bind_answers; [apply Hf|]. intros sk.
  apply bind_answers; [apply Hf|]. intros sv.
  destruct (50 <? S i); [apply ret_answers | apply IH].
Qed.

Lemma setLoop_answers (members : list value) :
  (forall x, answers (f x)) ->
  forall i parts, answers (setLoop f members i parts).
Proof.
  intros Hf. induction members as [|v rest IH]; intros i parts; simpl;
    [apply ret_answers|].
  apply bind_answers; [apply Hf|]. intros sv.
  destruct (50 <? S i); [apply ret_answers | apply IH].
Qed.

Lemma mapLoop_grows (entries : list (value * value)) :
  (forall x, grows (f x)) ->
  forall i parts, grows (mapLoop f entries i parts).
Proof.
  intros Hf. induction entries as [|[k v] rest IH]; intros i parts; simpl;
    [apply ret_grows|].
  apply bind_grows; [apply Hf|]. intros sk.
  apply bind_grows; [apply Hf|]. intros sv.
  destruct (50 <? S i); [apply ret_grows | apply IH].
Qed.

Lemma setLoop_grows (members : list value) :
  (forall x, grows (f x)) ->
  forall i parts, grows (setLoop f members i parts).
Proof.
  intros Hf. induction members as [|v rest IH]; intros i parts; simpl;
    [apply ret_grows|].
  apply bind_grows; [apply Hf|]. intros sv.
  destruct (50 <? S i); [apply ret_grows | apply IH].
Qed.

End Loops.

(** ** One activation of [formatValue] *)

Ltac answers_leaf :=
  leaf ltac:(first [ apply ret_answers | apply lift_answers | apply raise_answers
                   | apply bind_answers; [|intros ?] ]).
Ltac grows_leaf :=
  leaf ltac:(first [ apply ret_grows | apply lift_grows | apply raise_grows
                   | apply bind_grows; [|intros ?] ]).

Lemma formatBody_refines (f g : value -> nat -> fmt string) h val depth :
  (forall v d, refines (f v d) (g v d)) ->
  refines (formatBody f h val depth) (formatBody g h val depth).
Proof.
  intros Hfg. unfold formatBody.
  destruct val as [| | | | | | | |a]; try apply refines_refl.
  destruct (h a) as [| | | |k elems|k fault|entries|members| | |props];
    try apply refines_refl.
  - destruct (2 <? depth); [apply refines_refl|].
    apply bind_refines; [|intros; apply refines_refl].
    apply mapM_refines. intros v. apply Hfg.
  - apply bind_refines; [apply refines_refl|]. intros [|]; [apply refines_refl|].
    apply bind_refines; [apply refines_refl|]. intros _.
    destruct (2 <? depth); [apply refines_refl|].
    apply bind_refines; [|intros; apply refines_refl].
    apply mapLoop_refines. intros v. apply Hfg.
  - apply bind_refines; [apply refines_refl|]. intros [|]; [apply refines_refl|].
    apply bind_refines; [apply refines_refl|]. intros _.
    destruct (2 <? depth); [apply refines_refl|].
    apply bind_refines; [|intros; apply refines_refl].
    apply setLoop_refines. intros v. apply Hfg.
  - apply bind_refines; [apply refines_refl|]. intros [|]; [apply refines_refl|].
    apply bind_refines; [apply refines_refl|]. intros _.
    destruct (2 <? depth); [apply refines_refl|].
    apply bind_refines; [|intros; apply refines_refl].
    apply mapM_refines. intros k.
    apply bind_refines; [apply refines_refl|]. intros v.
    apply bind_refines; [apply Hfg|]. intros; apply refines_refl.
Qed.

(** Below depth 3 an activation needs its recursive calls at the next
    depth; from depth 3 on it makes none. *)
Lemma formatBody_answers (f : value -> nat -> fmt string) h val depth :
  (depth <= 2 -> forall v, answers (f v (depth + 1))) ->
  answers (formatBody f h val depth).
Proof.
  intros Hf. unfold formatBody.
  destruct val as [| | | | | | | |a]; answers_leaf.
  destruct (h a) as [| | | |k elems|k fault|entries|members| | |props];
    answers_leaf.
  - destruct (2 <? depth) eqn:Hd; [apply ret_answers|].
    apply Nat.ltb_ge in Hd.
    apply bind_answers; [|intros; apply ret_answers].
    apply mapM_answers. intros v. by apply Hf.
  - apply bind_answers; [apply seenHas_answers|]. intros [|]; [apply ret_answers|].
    apply bind_answers; [apply seenAdd_answers|]. intros _.
    destruct (2 <? depth) eqn:Hd; [apply ret_answers|].
    apply Nat.ltb_ge in Hd.
    apply bind_answers; [|intros; apply ret_answers].
    apply mapLoop_answers. intros v. by apply Hf.
  - apply bind_answers; [apply seenHas_answers|]. intros [|]; [apply ret_answers|].
    apply bind_answers; [apply seenAdd_answers|]. intros _.
    destruct (2 <? depth) eqn:Hd; [apply ret_answers|].
    apply Nat.ltb_ge in Hd.
    apply bind_answers; [|intros; apply ret_answers].
    apply setLoop_answers. intros v. by apply Hf.
  - apply bind_answers; [apply seenHas_answers|]. intros [|]; [apply ret_answers|].
    apply bind_answers; [apply seenAdd_answers|]. intros _.
    destruct (2 <? depth) eqn:Hd; [apply ret_answers|].
    apply Nat.ltb_ge in Hd.
    apply bind_answers; [|intros; apply ret_answers].
    apply mapM_answers. intros k.
    apply bind_answers; [apply lift_answers|]. intros v.
    apply bind_answers; [by apply Hf|]. intros; apply ret_answers.
Qed.

Lemma formatBody_grows (f : value -> nat -> fmt string) h val depth :
  (forall v d, grows (f v d)) -> grows (formatBody f h val depth).
Proof.
  intros Hf. unfold formatBody.
  destruct val as [| | | | | | | |a]; grows_leaf.
  destruct (h a) as [| | | |k elems|k fault|entries|members| | |props];
    grows_leaf.
  - destruct (2 <? depth); [apply ret_grows|].
    apply bind_grows; [|intros; apply ret_grows].
    apply mapM_grows. intros v. apply Hf.
  - apply bind_grows; [apply seenHas_grows|]. intros [|]; [apply ret_grows|].
    apply bind_grows; [apply seenAdd_grows|]. intros _.
    destruct (2 <? depth); [apply ret_grows|].
    apply bind_grows; [|intros; apply ret_grows].
    apply mapLoop_grows. intros v. apply Hf.
  - apply bind_grows; [apply seenHas_grows|]. intros [|]; [apply ret_grows|].
    apply bind_grows; [apply seenAdd_grows|]. intros _.
    destruct (2 <? depth); [apply ret_grows|].
    apply bind_grows; [|intros; apply ret_grows].
    apply setLoop_grows. intros v. apply Hf.
  - apply bind_grows; [apply seenHas_grows|]. intros [|]; [apply ret_grows|].
    apply bind_grows; [apply seenAdd_grows|]. intros _.
    destruct (2 <? depth); [apply ret_grows|].
    apply bind_grows; [|intros; apply ret_grows].
    apply mapM_grows. intros k.
    apply bind_grows; [apply lift_grows|]. intros v.
    apply bind_grows; [apply Hf|]. intros; apply ret_grows.
Qed.

(** ** Fuel *)

Lemma formatValue_fuel_mono fuel fuel' h val depth :
  fuel <= fuel' ->
  refines (formatValue_fuel fuel h val depth) (formatValue_fuel fuel' h val depth).
Proof.
  revert fuel' val depth. induction fuel as [|n IH]; intros fuel' val depth Hle.
  - by intros s r.
  - destruct fuel' as [|n']; [lia|]. simpl.
    apply formatBody_refines. intros v d. apply IH. lia.
Qed.

Lemma formatValue_fuel_answers fuel h val depth :
  3 - depth < fuel -> answers (formatValue_fuel fuel h val depth).
Proof.
  revert val depth. induction fuel as [|n IH]; intros val depth Hlt; [lia|].
  simpl. apply formatBody_answers. intros Hd v. apply IH. lia.
Qed.

Lemma formatValue_fuel_grows fuel h val depth :
  grows (formatValue_fuel fuel h val depth).
Proof.
  revert val depth. induction fuel as [|n IH]; intros val depth.
  - by intros s c s'.
  - simpl. apply formatBody_grows. intros v d. apply IH.
Qed.

(** [S (3 - depth)] nested activations are enough for a call at [depth]
    (four at depth 0), and any larger budget gives the same answer. *)
Lemma formatValue_fuel_enough fuel h val depth s :
  3 - depth < fuel ->
  exists r, formatValue_fuel (S (3 - depth)) h val depth s = Some r
            /\ formatValue_fuel fuel h val depth s = Some r.
Proof.
  intros Hlt.
  destruct (formatValue_fuel_answers (S (3 - depth)) h val depth ltac:(lia) s)
    as [r Hr].
  exists r. split; [done|].
  apply (formatValue_fuel_mono (S (3 - depth)) fuel h val depth ltac:(lia) _ _ Hr).
Qed.

Lemma formatValue_unfold h val :
  exists s', formatValue_fuel 4 h val 0 ∅ = Some (formatValue h val, s').
Proof.
  unfold formatValue.
  destruct (formatValue_fuel_answers 4 h val 0 ltac:(lia) ∅) as [[c s'] ->].
  by exists s'.
Qed.

(** ** Members formatted in turn *)

Section Turns.

Context {A B : Type}.
Implicit Types (f : A -> fmt B).

Lemma mapM_inTurn f xs s ys s' :
  mapM f xs s = Some (Normal ys, s') <-> inTurn f xs s ys s'.
Proof.
  split.
  - revert s ys. induction xs as [|x xs IH]; intros s ys; simpl.
    + intros [= <- <-]. constructor.
    + unfold bind at 1. destruct (f x s) as [[[y|e] s1]|] eqn:Hx; [|done..].
      unfold bind at 1.
      destruct (mapM f xs s1) as [[[ys'|e] s2]|] eqn:Hxs; [|done..].
      intros [= <- <-]. econstructor; [done|]. by apply IH.
  - induction 1 as [|x xs s y s1 ys s2 Hx _ IH]; simpl; [done|].
    unfold bind at 1. rewrite Hx. unfold bind at 1. by rewrite IH.
Qed.

Lemma mapM_first_fault f pre x post s ts s1 e s2 :
  inTurn f pre s ts s1 -> f x s1 = Some (Throw e, s2) ->
  mapM f (pre ++ x :: post) s = Some (Throw e, s2).
Proof.
  intros Hpre Hx. induction Hpre as [|v vs s t s1 ts s3 Hv _ IH]; simpl.
  - unfold bind. by rewrite Hx.
  - unfold bind at 1. rewrite Hv. unfold bind at 1. by rewrite (IH Hx).
Qed.

Lemma inTurn_length f xs s ys s' : inTurn f xs s ys s' -> length ys = length xs.
Proof. induction 1; simpl; by f_equal. Qed.

Lemma inTurn_grows f xs s ys s' :
  (forall x, grows (f x)) -> inTurn f xs s ys s' -> s ⊆ s'.
Proof.
  intros Hf. induction 1 as [|x xs s y s1 ys s2 Hx _ IH]; [done|].
  pose proof (Hf x _ _ _ Hx). set_solver.
Qed.

Lemma inTurn_app f l1 l2 s ys s' :
  inTurn f (l1 ++ l2) s ys s'
  <-> exists y1 y2 sm,
        ys = (y1 ++ y2)%list /\ inTurn f l1 s y1 sm /\ inTurn f l2 sm y2 s'.
Proof.
  split.
  - revert s ys. induction l1 as [|x l1 IH]; intros s ys; simpl.
    + intros H. exists [], ys, s. split; [done|]. split; [constructor|done].
    + inversion 1 as [|v vs s0 t s1 ts s2 Hx Hrest]; subst.
      destruct (IH _ _ Hrest) as (y1 & y2 & sm & -> & H1 & H2).
      exists (t :: y1), y2, sm. split; [done|]. split; [|done].
      by econstructor.
  - intros (y1 & y2 & sm & -> & H1 & H2).
    induction H1 as [|v vs s t s1 ts s2 Hx _ IH]; simpl; [done|].
    econstructor; [done|]. by apply IH.
Qed.

Lemma inTurn_functional f xs s ys s' ys' s'' :
  inTurn f xs s ys s' -> inTurn f xs s ys' s'' -> ys = ys' /\ s' = s''.
Proof.
  intros H. revert ys' s''.
  induction H as [|x xs s y s1 ys s2 Hx _ IH]; intros ys' s''.
  - by inversion 1.
  - inversion 1 as [|v vs s0 t s1' ts s2' Hx' Hrest]; subst.
    rewrite Hx in Hx'. injection Hx' as <- <-.
    destruct (IH _ _ Hrest) as [<- <-]. done.
Qed.

End Turns.

Lemma marker_short i (l : nat) : i <= 50 -> l = 0 -> marker (51 - i <=? l) = [].
Proof.
  intros Hi ->. destruct (51 - i <=? 0) eqn:E; [|done].
  apply Nat.leb_le in E. lia.
Qed.

(** The loop over a Set formats the members in turn, the first 51 of
    them when it starts at 0, and adds the marker when it has taken 51. *)
Lemma setLoop_inTurn f members :
  forall i parts s out s',
    i <= 50 ->
    setLoop f members i parts s = Some (Normal out, s')
    <-> exists ts,
          inTurn f (take (51 - i) members) s ts s'
          /\ out = (parts ++ ts ++ marker (51 - i <=? length members))%list.
Proof.
  induction members as [|v rest IH]; intros i parts s out s' Hi.
  - cbn [setLoop]. rewrite take_nil, (marker_short i) by done. split.
    + intros [= <- <-]. exists []. split; [constructor|]. by rewrite !app_nil_r.
    + intros (ts & Hts & ->). inversion Hts; subst. by rewrite !app_nil_r.
  - cbn [setLoop]. replace (51 - i) with (S (50 - i)) by lia.
    rewrite firstn_cons. cbn [length]. unfold bind at 1.
    change (S (50 - i) <=? S (length rest)) with (50 - i <=? length rest).
    destruct (50 <? S i) eqn:Hlt.
    + apply Nat.ltb_lt in Hlt. replace (50 - i) with 0 by lia.
      rewrite take_0. change (0 <=? length rest) with true. split.
      * destruct (f v s) as [[[t|e] s1]|] eqn:Hv; [|done..].
        intros [= <- <-]. exists [t]. split; [by repeat econstructor|].
        by rewrite <- app_assoc.
      * intros (ts & Hts & ->).
        inversion Hts as [|? ? ? t s1 ts' ? Hv Hrest]; subst.
        inversion Hrest; subst. rewrite Hv. unfold ret.
        by rewrite <- app_assoc.
    + apply Nat.ltb_ge in Hlt.
      replace (50 - i) with (51 - S i) by lia. split.
      * destruct (f v s) as [[[t|e] s1]|] eqn:Hv; [|done..].
        intros H. apply IH in H; [|lia]. destruct H as (ts & Hts & ->).
        exists (t :: ts). split; [by econstructor|].
        by rewrite <- app_assoc.
      * intros (ts & Hts & ->).
        inversion Hts as [|? ? ? t s1 ts' ? Hv Hrest]; subst.
        rewrite Hv. apply IH; [lia|]. exists ts'. split; [done|].
        by rewrite <- app_assoc.
Qed.


Lemma arrows_cons k v texts :
  arrows (k :: v :: texts) = (k +:+ " => " +:+ v) :: arrows texts.
Proof. reflexivity. Qed.

Lemma flat_take n (entries : list (value * value)) :
  flat (take n entries) = take (2 * n) (flat entries).
Proof.
  revert n. induction entries as [|[k v] rest IH]; intros [|n]; simpl; try done.
  replace (n + S (n + 0)) with (S (2 * n)) by lia. simpl. by rewrite IH.
Qed.

Lemma flat_length (entries : list (value * value)) :
  length (flat entries) = 2 * length entries.
Proof. induction entries as [|[k v] rest IH]; simpl; lia. Qed.

(** The loop over a Map formats key, value, key, value, ... in turn. *)
Lemma mapLoop_inTurn (f : value -> fmt string) entries :
  forall i parts s out s',
    i <= 50 ->
    mapLoop f entries i parts s = Some (Normal out, s')
    <-> exists ts,
          inTurn f (flat (take (51 - i) entries)) s ts s'
          /\ out = (parts ++ arrows ts ++ marker (51 - i <=? length entries))%list.
Proof.
  induction entries as [|[k v] rest IH]; intros i parts s out s' Hi.
  - cbn [mapLoop]. rewrite take_nil, (marker_short i) by done. cbn [flat]. split.
    + intros [= <- <-]. exists []. split; [constructor|]. by rewrite !app_nil_r.
    + intros (ts & Hts & ->). inversion Hts; subst. by rewrite !app_nil_r.
  - cbn [mapLoop]. replace (51 - i) with (S (50 - i)) by lia.
    rewrite firstn_cons. cbn [length flat]. unfold bind at 1.
    change (S (50 - i) <=? S (length rest)) with (50 - i <=? length rest).
    destruct (50 <? S i) eqn:Hlt.
    + apply Nat.ltb_lt in Hlt. replace (50 - i) with 0 by lia.
      rewrite take_0. change (0 <=? length rest) with true. cbn [flat]. split.
      * destruct (f k s) as [[[tk|e] s1]|] eqn:Hk; [|done..].
        unfold bind at 1.
        destruct (f v s1) as [[[tv|e] s2]|] eqn:Hv; [|done..].
        intros [= <- <-]. exists [tk; tv]. split; [by repeat econstructor|].
        by rewrite <- app_assoc.
      * intros (ts & Hts & ->).
        inversion Hts as [|? ? ? tk s1 ts' ? Hk Hrest]; subst.
        inversion Hrest as [|? ? ? tv s2 ts'' ? Hv Hrest']; subst.
        inversion Hrest'; subst. rewrite Hk. unfold bind at 1. rewrite Hv.
        unfold ret. by rewrite <- app_assoc.
    + apply Nat.ltb_ge in Hlt.
      replace (50 - i) with (51 - S i) by lia. split.
      * destruct (f k s) as [[[tk|e] s1]|] eqn:Hk; [|done..].
        unfold bind at 1.
        destruct (f v s1) as [[[tv|e] s2]|] eqn:Hv; [|done..].
        intros H. apply IH in H; [|lia]. destruct H as (ts & Hts & ->).
        exists (tk :: tv :: ts). split; [by repeat econstructor|].
        by rewrite arrows_cons, <- app_assoc.
      * intros (ts & Hts & ->).
        inversion Hts as [|? ? ? tk s1 ts' ? Hk Hrest]; subst.
        inversion Hrest as [|? ? ? tv s2 ts'' ? Hv Hrest']; subst.
        rewrite Hk. unfold bind at 1. rewrite Hv.
        apply IH; [lia|]. exists ts''. split; [done|].
        by rewrite arrows_cons, <- app_assoc.
Qed.


(** ** The dispatch of [formatValue]

    The embedding dispatches on the constructor of the value where the
    code tests [typeof val] and the class tag. *)

(** Line 24 ([/Array$/.test(tag)]) selects exactly the array-likes, so the
    test of line 51 never succeeds. *)
Lemma array_test (o : object) :
  endsWith "Array" (typeOf o) = true
  <-> (exists k elems, o = OArray k elems) \/ (exists k fault, o = ODetached k fault).
Proof.
  split.
  - destruct o; try discriminate; [left|right]; by eexists _, _.
  - intros [(k & elems & ->)|(k & fault & ->)]; by destruct k.
Qed.

(** Whatever passes lines 12-17 has [typeof val === "object"]: line 54
    takes every value that reaches it, and the [try] of lines 63-67 is
    never entered. *)
Lemma typeof_object (val : value) :
  val = VNull
  \/ typeof val ∈ ["undefined"; "string"; "number"; "boolean"; "bigint";
                   "symbol"; "function"]
  \/ (exists a, val = VRef a) /\ typeof val = "object".
Proof.
  destruct val; [by left| | | | | | | |right; right; by eauto];
    right; left; simpl; set_solver.
Qed.

(** ** Circular markers *)

Lemma formatValue_fuel_seen_in fuel h a depth seen c seen' :
  tracked (h a) = true ->
  formatValue_fuel fuel h (VRef a) depth seen = Some (c, seen') ->
  a ∈ seen'.
Proof.
  destruct fuel as [|n]; [done|]. intros Ht. simpl.
  pose proof (formatValue_fuel_grows n h) as Hg.
  destruct (h a) as [| | | |k elems|k fault|entries|members| | |props] eqn:Ha; try done.
  all: unfold bind at 1; unfold seenHas; simpl.
  all: destruct (bool_decide (a ∈ seen)) eqn:Hin.
  all: try (apply bool_decide_eq_true in Hin; by intros [= <- <-]).
  all: unfold bind at 1; unfold seenAdd; simpl.
  all: destruct (2 <? depth); [intros [= <- <-]; set_solver|].
  all: intros H.
  - eapply (bind_grows _ _ (mapLoop_grows _ _ (fun v => Hg v (depth + 1)) 0 []))
      in H; [set_solver|]. intros; apply ret_grows.
  - eapply (bind_grows _ _ (setLoop_grows _ _ (fun v => Hg v (depth + 1)) 0 []))
      in H; [set_solver|]. intros; apply ret_grows.
  - eapply bind_grows in H; [set_solver| |intros; apply ret_grows].
    apply mapM_grows. intros k.
    apply bind_grows; [apply lift_grows|]. intros v.
    apply bind_grows; [apply Hg|]. intros; apply ret_grows.
Qed.

Lemma formatValue_fuel_circular fuel h a depth seen :
  tracked (h a) = true -> a ∈ seen ->
  formatValue_fuel (S fuel) h (VRef a) depth seen
  = Some (Normal (circularMarker (h a)), seen).
Proof.
  intros Ht Hin. simpl.
  destruct (h a); try done.
  all: unfold bind, seenHas; simpl; by rewrite bool_decide_eq_true_2.
Qed.

(** While a Map, a Set or a plain object is being formatted, every
    recursive call runs in a state of [seen] that contains it. *)

Lemma bind_agreeFrom {A B} a (m m' : fmt A) (k k' : A -> fmt B) :
  grows m -> agreeFrom a m m' -> (forall x, agreeFrom a (k x) (k' x)) ->
  agreeFrom a (bind m k) (bind m' k').
Proof.
  intros Hg Hm Hk s Hs. unfold bind. rewrite <- (Hm s Hs).
  destruct (m s) as [[[x|e] s1]|] eqn:E; [|done..].
  apply Hk. apply (Hg _ _ _ E), Hs.
Qed.

Lemma agreeFrom_refl {T} a (m : fmt T) : agreeFrom a m m.
Proof. by intros s _. Qed.

Lemma guarded_agreeFrom {T} a (m : fmt T) : agreeFrom a m (guarded a m).
Proof. intros s Hs. unfold guarded. by rewrite bool_decide_eq_true_2. Qed.

Lemma mapM_agreeFrom {A B} a (f g : A -> fmt B) xs :
  (forall x, grows (f x)) -> (forall x, agreeFrom a (f x) (g x)) ->
  agreeFrom a (mapM f xs) (mapM g xs).
Proof.
  intros Hg Hfg. induction xs as [|x xs IH]; simpl; [apply agreeFrom_refl|].
  apply bind_agreeFrom; [apply Hg|apply Hfg|]. intros y.
  apply bind_agreeFrom; [by apply mapM_grows|apply IH|].
  intros ys. apply agreeFrom_refl.
Qed.

Lemma mapLoop_agreeFrom a (f g : value -> fmt string) entries :
  (forall x, grows (f x)) -> (forall x, agreeFrom a (f x) (g x)) ->
  forall i parts, agreeFrom a (mapLoop f entries i parts) (mapLoop g entries i parts).
Proof.
  intros Hg Hfg. induction entries as [|[k v] rest IH]; intros i parts; simpl;
    [apply agreeFrom_refl|].
  apply bind_agreeFrom; [apply Hg|apply Hfg|]. intros sk.
  apply bind_agreeFrom; [apply Hg|apply Hfg|]. intros sv.
  destruct (50 <? S i); [apply agreeFrom_refl | apply IH].
Qed.

Lemma setLoop_agreeFrom a (f g : value -> fmt string) members :
  (forall x, grows (f x)) -> (forall x, agreeFrom a (f x) (g x)) ->
  forall i parts, agreeFrom a (setLoop f members i parts) (setLoop g members i parts).
Proof.
  intros Hg Hfg. induction members as [|v rest IH]; intros i parts; simpl;
    [apply agreeFrom_refl|].
  apply bind_agreeFrom; [apply Hg|apply Hfg|]. intros sv.
  destruct (50 <? S i); [apply agreeFrom_refl | apply IH].
Qed.

Lemma enter_agreeFrom a (marker : string) (rest rest' : fmt string) seen :
  agreeFrom a rest rest' ->
  (do visited <- seenHas a;
   if visited : bool then ret marker else do _ <- seenAdd a; rest) seen
  = (do visited <- seenHas a;
     if visited : bool then ret marker else do _ <- seenAdd a; rest') seen.
Proof.
  intros H. unfold bind, seenHas, seenAdd; simpl.
  destruct (bool_decide (a ∈ seen)); [done|]. apply H. set_solver.
Qed.

Lemma formatBody_guarded self h a depth seen :
  (forall v d, grows (self v d)) -> tracked (h a) = true ->
  formatBody self h (VRef a) depth seen
  = formatBody (fun v d => guarded a (self v d)) h (VRef a) depth seen.
Proof.
  intros Hg Ht. unfold formatBody.
  destruct (h a) as [| | | |k elems|k fault|entries|members| | |props]; try done.
  all: apply enter_agreeFrom.
  all: destruct (2 <? depth); [apply agreeFrom_refl|].
  all: apply bind_agreeFrom; [| |intros; apply agreeFrom_refl].
  - apply mapLoop_grows. intros v. apply Hg.
  - apply mapLoop_agreeFrom; intros v; [apply Hg|apply guarded_agreeFrom].
  - apply setLoop_grows. intros v. apply Hg.
  - apply setLoop_agreeFrom; intros v; [apply Hg|apply guarded_agreeFrom].
  - apply mapM_grows. intros k.
    apply bind_grows; [apply lift_grows|]. intros v.
    apply bind_grows; [apply Hg|]. intros; apply ret_grows.
  - apply mapM_agreeFrom.
    + intros k. apply bind_grows; [apply lift_grows|]. intros v.
      apply bind_grows; [apply Hg|]. intros; apply ret_grows.
    + intros k. apply bind_agreeFrom; [apply lift_grows|apply agreeFrom_refl|].
      intros v. apply bind_agreeFrom; [apply Hg|apply guarded_agreeFrom|].
      intros; apply agreeFrom_refl.
Qed.

Lemma append_assoc (s1 s2 s3 : string) : (s1 +:+ s2) +:+ s3 = s1 +:+ s2 +:+ s3.
Proof.
  induction s1 as [|c s1 IH]; [reflexivity|].
  change (String c ((s1 +:+ s2) +:+ s3) = String c (s1 +:+ s2 +:+ s3)).
  by f_equal.
Qed.

(** An array whose two elements are the same Map, Set or plain object:
    whatever the first element renders as, the second is the marker. *)
Lemma shared_elements_rendering h a b :
  h a = OArray Array [VRef b; VRef b] -> tracked (h b) = true ->
  exists c s1,
    formatValue_fuel 3 h (VRef b) 1 ∅ = Some (c, s1)
    /\ formatValue h (VRef a)
       = match c with
         | Normal t => Normal ("Array(2) [" +:+ t +:+ ", " +:+ circularMarker (h b) +:+ "]")
         | Throw e => Throw e
         end.
Proof.
  intros Ha Hb.
  destruct (formatValue_fuel_answers 3 h (VRef b) 1 ltac:(lia) ∅) as [[c s1] H1].
  exists c, s1. split; [done|].
  pose proof (formatValue_fuel_circular 2 h b 1 s1 Hb) as H2.
  unfold formatValue.
  change (formatValue_fuel 4 h (VRef a) 0)
    with (formatBody (formatValue_fuel 3 h) h (VRef a) 0).
  remember (formatValue_fuel 3 h) as F eqn:HF.
  unfold formatBody. rewrite Ha.
  change (take 50 [VRef b; VRef b]) with [VRef b; VRef b].
  change (2 <? 0) with false. change (0 + 1) with 1. cbn [mapM].
  unfold bind at 1 2. rewrite H1.
  destruct c as [t|e]; [|done].
  assert (Hin : b ∈ s1) by (eapply formatValue_fuel_seen_in; [exact Hb|]; rewrite <- HF; exact H1).
  unfold bind at 1 2. rewrite (H2 Hin).
  unfold bind, ret.
  change (typeOf (OArray Array [VRef b; VRef b])) with "Array".
  change (lengthText [VRef b; VRef b]) with "2".
  change (50 <? length [VRef b; VRef b]) with false.
  cbn [join String.concat].
  rewrite (append_assoc t). reflexivity.
Qed.

Example shared_reference_rendering :
  formatValue sharedPair (VRef 0) = Normal "Array(2) [{  }, [Circular]]".
Proof. vm_compute. reflexivity. Qed.

Example cyclic_object_rendering :
  formatValue cyclicObject (VRef 0) = Normal (qq "{ 'self': [Circular] }").
Proof. vm_compute. reflexivity. Qed.

(** C3. On the cyclic array [a = []; a.push(a)] no circular marker is
    produced: the array is entered again at depths 1, 2 and 3, and the
    traversal is ended by the depth bound alone. *)
Theorem cyclic_array_rendering :
  formatValue cyclicArray (VRef 0)
  = Normal "Array(1) [Array(1) [Array(1) [Array(1) […]]]]".
Proof. vm_compute. reflexivity. Qed.

(** ** One [seen] set for the whole traversal

    The members of an array-like, a Set, a Map and a plain object are
    formatted in turn: each in the state of [seen] that the one before
    has left. *)

Lemma readProp_held props k p :
  NoDup (keysOf props) -> (k, p) ∈ props -> readProp props k = held p.
Proof.
  unfold readProp, keysOf.
  induction props as [|[k' p'] rest IH]; simpl; intros Hnd Hin.
  { by apply elem_of_nil in Hin. }
  apply NoDup_cons in Hnd as [Hk' Hnd].
  apply elem_of_cons in Hin as [[= <- <-]|Hin].
  - rewrite String.eqb_refl. by destruct p.
  - destruct (String.eqb_spec k' k) as [->|Hne]; [|by apply IH].
    exfalso. apply Hk'. apply list_elem_of_fmap. by exists (k, p).
Qed.

(** Reading the properties [q] of the object in turn and formatting what
    they hold. *)
Lemma properties_inTurn (F : value -> fmt string) props q :
  NoDup (keysOf props) -> q ⊆ props ->
  forall s parts s',
    inTurn (fun k => do v <- lift (readProp props k);
                     do t <- F v;
                     ret (JSON_stringify k +:+ ": " +:+ t))
           (keysOf q) s parts s'
    <-> exists vs ts,
          Forall2 (fun kp v => held (snd kp) = Normal v) q vs
          /\ inTurn F vs s ts s'
          /\ parts = labelled (keysOf q) ts.
Proof.
  intros Hnd. induction q as [|[k p] q IH]; intros Hsub s parts s'.
  - split.
    + inversion 1; subst. exists [], []. by repeat constructor.
    + intros (vs & ts & Hvs & Hts & ->). inversion Hvs; subst.
      inversion Hts; subst. constructor.
  - assert (Hp : readProp props k = held p).
    { apply readProp_held; [done|]. apply Hsub. by left. }
    assert (Hq : q ⊆ props).
    { intros x Hx. apply Hsub. by right. }
    simpl. split.
    + inversion 1 as [|? ? ? part s1 parts' ? Hk Hrest]; subst.
      rewrite Hp in Hk. unfold bind at 1 in Hk.
      destruct (held p) as [v|e] eqn:Hv; [|done]. simpl in Hk.
      unfold bind at 1 in Hk.
      destruct (F v s) as [[[t|e] s2]|] eqn:HF; [|done..].
      injection Hk as <- <-.
      apply IH in Hrest as (vs & ts & Hvs & Hts & ->); [|done].
      exists (v :: vs), (t :: ts). split; [by constructor|].
      split; [by econstructor|done].
    + intros (vs & ts & Hvs & Hts & ->).
      inversion Hvs as [|? v ? vs' Hv Hvs']; subst. simpl in Hv.
      inversion Hts as [|? ? ? t s1 ts' ? HF Hrest]; subst.
      simpl. econstructor.
      * rewrite Hp, Hv. simpl. unfold bind at 1. simpl.
        unfold bind at 1. rewrite HF. reflexivity.
      * apply IH; [done|]. by exists vs', ts'.
Qed.

Lemma properties_first_fault (F : value -> fmt string) props pre k p post :
  NoDup (keysOf props) -> props = (pre ++ (k, p) :: post)%list ->
  forall vs s ts s1 e s2,
    Forall2 (fun kp v => held (snd kp) = Normal v) pre vs ->
    inTurn F vs s ts s1 ->
    (held p = Throw e /\ s2 = s1)
    \/ (exists v, held p = Normal v /\ F v s1 = Some (Throw e, s2)) ->
    mapM (fun k => do v <- lift (readProp props k);
                   do t <- F v;
                   ret (JSON_stringify k +:+ ": " +:+ t))
         (keysOf pre ++ k :: keysOf post) s
    = Some (Throw e, s2).
Proof.
  intros Hnd Hprops vs s ts s1 e s2 Hvs Hts Hfault.
  eapply mapM_first_fault.
  - apply (properties_inTurn F props pre Hnd).
    + intros x Hx. rewrite Hprops. apply elem_of_app. by left.
    + by exists vs, ts.
  - rewrite (readProp_held props k p Hnd).
    + destruct Hfault as [[-> ->]|(v & -> & HF)]; simpl; [done|].
      unfold bind at 1. simpl. unfold bind. by rewrite HF.
    + rewrite Hprops. apply elem_of_app. right. by left.
Qed.

Section Containers.

Variables (h : heap) (n : nat) (b : addr) (d : nat).
Hypothesis shallow : d <= 2.

(** The recursive calls of an activation at depth [d]. *)
Let F : value -> fmt string := fun v => formatValue_fuel n h v (d + 1).

Lemma depth_test : (2 <? d) = false.
Proof. by apply Nat.ltb_ge. Qed.

Lemma array_inTurn k xs s text s' :
  h b = OArray k xs ->
  formatValue_fuel (S n) h (VRef b) d s = Some (Normal text, s')
  <-> exists parts,
        inTurn F (take 50 xs) s parts s'
        /\ text = arrayText k xs parts.
Proof.
  unfold arrayText.
  intros Hb. cbn [formatValue_fuel]. unfold formatBody. rewrite Hb, depth_test.
  cbn [typeOf]. unfold bind at 1. split.
  - destruct (mapM _ _ s) as [[[parts|e] s1]|] eqn:Hm; [|done..].
    intros [= <- <-]. exists parts. split; [by apply mapM_inTurn|done].
  - intros (parts & Hparts & ->). apply mapM_inTurn in Hparts.
    unfold F in Hparts. by rewrite Hparts.
Qed.


Lemma enter s (rest : fmt string) (mark : string) :
  b ∉ s ->
  (do visited <- seenHas b;
   if visited : bool then ret mark else do _ <- seenAdd b; rest) s
  = rest ({[b]} ∪ s).
Proof.
  intros Hb. unfold bind, seenHas, seenAdd. simpl.
  by rewrite bool_decide_eq_false_2.
Qed.

Lemma set_inTurn members s text s' :
  h b = OSet members -> b ∉ s ->
  formatValue_fuel (S n) h (VRef b) d s = Some (Normal text, s')
  <-> exists parts,
        inTurn F (take 51 members) ({[b]} ∪ s) parts s'
        /\ text = setText members parts.
Proof.
  unfold setText.
  intros Hb Hs. cbn [formatValue_fuel]. unfold formatBody. rewrite Hb.
  rewrite enter by done. rewrite depth_test. unfold bind at 1. split.
  - destruct (setLoop _ _ _ _ _) as [[[out|e] s1]|] eqn:Hm; [|done..].
    intros [= <- <-].
    apply setLoop_inTurn in Hm as (parts & Hparts & ->); [|lia].
    exists parts. split; [done|]. reflexivity.
  - intros (parts & Hparts & ->).
    assert (Hm : setLoop F members 0 [] ({[b]} ∪ s)
                 = Some (Normal ([] ++ parts ++ marker (51 - 0 <=? length members))%list,
                         s')).
    { apply setLoop_inTurn; [lia|]. by exists parts. }
    unfold F in Hm. by rewrite Hm.
Qed.


Lemma map_inTurn entries s text s' :
  h b = OMap entries -> b ∉ s ->
  formatValue_fuel (S n) h (VRef b) d s = Some (Normal text, s')
  <-> exists texts,
        inTurn F (flat (take 51 entries)) ({[b]} ∪ s) texts s'
        /\ text = mapText entries texts.
Proof.
  unfold mapText.
  intros Hb Hs. cbn [formatValue_fuel]. unfold formatBody. rewrite Hb.
  rewrite enter by done. rewrite depth_test. unfold bind at 1. split.
  - destruct (mapLoop _ _ _ _ _) as [[[out|e] s1]|] eqn:Hm; [|done..].
    intros [= <- <-].
    apply mapLoop_inTurn in Hm as (texts & Htexts & ->); [|lia].
    exists texts. split; [done|]. reflexivity.
  - intros (texts & Htexts & ->).
    assert (Hm : mapLoop F entries 0 [] ({[b]} ∪ s)
                 = Some (Normal ([] ++ arrows texts
                                 ++ marker (51 - 0 <=? length entries))%list, s')).
    { apply mapLoop_inTurn; [lia|]. by exists texts. }
    unfold F in Hm. by rewrite Hm.
Qed.


Lemma object_inTurn props s text s' :
  h b = OObject props -> b ∉ s -> NoDup (keysOf props) ->
  formatValue_fuel (S n) h (VRef b) d s = Some (Normal text, s')
  <-> exists vs texts,
        Forall2 (fun kp v => held (snd kp) = Normal v) (take 50 props) vs
        /\ inTurn F vs ({[b]} ∪ s) texts s'
        /\ text = objectText props texts.
Proof.
  unfold objectText.
  intros Hb Hs Hnd. cbn [formatValue_fuel]. unfold formatBody. rewrite Hb.
  rewrite enter by done. rewrite depth_test. unfold bind at 1.
  assert (Hk : take 50 (keysOf props) = keysOf (take 50 props)).
  { unfold keysOf. by rewrite <- fmap_take. }
  assert (Hl : length (keysOf props) = length props).
  { unfold keysOf. apply length_map. }
  rewrite Hk, Hl.
  assert (Hsub : take 50 props ⊆ props).
  { intros x Hx. by apply (subseteq_take 50 props). }
  split.
  - destruct (mapM _ _ _) as [[[parts|e] s1]|] eqn:Hm; [|done..].
    intros [= <- <-]. apply mapM_inTurn in Hm.
    apply (properties_inTurn F props _ Hnd Hsub)
      in Hm as (vs & texts & Hvs & Htexts & ->).
    exists vs, texts. split; [done|]. split; [done|].
    by destruct (50 <? length props); rewrite ?app_nil_r.
  - intros (vs & texts & Hvs & Htexts & ->).
    assert (Hm : inTurn (fun k => do v <- lift (readProp props k);
                                  do t <- F v;
                                  ret (JSON_stringify k +:+ ": " +:+ t))
                        (keysOf (take 50 props)) ({[b]} ∪ s)
                        (labelled (keysOf (take 50 props)) texts) s').
    { apply (properties_inTurn F props _ Hnd Hsub). by exists vs, texts. }
    apply mapM_inTurn in Hm. unfold F in Hm. rewrite Hm.
    by destruct (50 <? length props); rewrite ?app_nil_r.
Qed.


End Containers.

(** Of two members that are the same Map, Set or plain object, the later
    one is rendered as the circular marker, whatever lies between. *)
Lemma later_member_marked h n d a l1 l2 l3 s ts s' :
  tracked (h a) = true ->
  inTurn (fun v => formatValue_fuel n h v d)
         (l1 ++ VRef a :: l2 ++ VRef a :: l3) s ts s' ->
  exists p1 t p2 p3,
    ts = (p1 ++ t :: p2 ++ circularMarker (h a) :: p3)%list
    /\ length p1 = length l1 /\ length p2 = length l2.
Proof.
  intros Ht H.
  apply inTurn_app in H as (p1 & rest & sm & -> & H1 & H).
  inversion H as [|? ? ? t s1 rest' ? Hfirst H']; subst.
  apply inTurn_app in H' as (p2 & rest'' & s2 & -> & H2 & H').
  inversion H' as [|? ? ? t' s3 p3 ? Hsecond H3]; subst.
  exists p1, t, p2, p3.
  split; [|split; [by eapply inTurn_length|by eapply inTurn_length]].
  do 3 f_equal.
  assert (Hin : a ∈ s2).
  { apply (inTurn_grows _ _ _ _ _ (fun v => formatValue_fuel_grows n h v d) H2).
    by eapply formatValue_fuel_seen_in. }
  destruct n as [|m]; [done|].
  rewrite (formatValue_fuel_circular m h a d s2 Ht Hin) in Hsecond.
  by injection Hsecond as <- _.
Qed.

(** C10, as the code has it.  Within one traversal the [seen] set is
    shared and only grows.  A Map, a Set or a plain object is in the set
    while its members are being formatted and for ever after, and a
    member of the set is answered with the circular marker of its kind,
    without entering the value again and without changing the set.  The
    members of a container that is expanded (an array-like, a Set, a Map,
    a plain object, at depth 2 at most) are formatted in turn, each in
    the state of the set that the one before has left; so of two members
    that are the same Map, Set or plain object the later one is the
    marker, whether or not there is a cycle. *)
Theorem visited_value_marked_circular (h : heap) :
  (forall fuel val depth seen c seen',
      formatValue_fuel fuel h val depth seen = Some (c, seen') -> seen ⊆ seen')
  /\ (forall fuel a depth seen,
         tracked (h a) = true ->
         formatValue_fuel (S fuel) h (VRef a) depth seen
         = formatBody (fun v d => guarded a (formatValue_fuel fuel h v d))
                      h (VRef a) depth seen)
  /\ (forall fuel a depth seen c seen',
         tracked (h a) = true ->
         formatValue_fuel fuel h (VRef a) depth seen = Some (c, seen') ->
         forall later depth' fuel',
           seen' ⊆ later ->
           formatValue_fuel (S fuel') h (VRef a) depth' later
           = Some (Normal (circularMarker (h a)), later))
  /\ (forall fuel a depth seen,
         tracked (h a) = true -> a ∈ seen ->
         formatValue_fuel (S fuel) h (VRef a) depth seen
         = Some (Normal (circularMarker (h a)), seen))
  /\ (forall fuel b depth seen text seen',
         depth <= 2 ->
         formatValue_fuel (S fuel) h (VRef b) depth seen = Some (Normal text, seen') ->
         let member := fun v => formatValue_fuel fuel h v (depth + 1) in
         match h b with
         | OArray k elems =>
             exists parts,
               inTurn member (take 50 elems) seen parts seen'
               /\ text = arrayText k elems parts
         | OSet members =>
             b ∉ seen ->
             exists parts,
               inTurn member (take 51 members) ({[b]} ∪ seen) parts seen'
               /\ text = setText members parts
         | OMap entries =>
             b ∉ seen ->
             exists texts,
               inTurn member (flat (take 51 entries)) ({[b]} ∪ seen) texts seen'
               /\ text = mapText entries texts
         | OObject props =>
             b ∉ seen -> NoDup (keysOf props) ->
             exists vs texts,
               Forall2 (fun kp v => held (snd kp) = Normal v) (take 50 props) vs
               /\ inTurn member vs ({[b]} ∪ seen) texts seen'
               /\ text = objectText props texts
         | _ => True
         end)
  /\ (forall fuel depth a before between behind seen texts seen',
         tracked (h a) = true ->
         inTurn (fun v => formatValue_fuel fuel h v depth)
                (before ++ VRef a :: between ++ VRef a :: behind) seen texts seen' ->
         exists p1 t p2 p3,
           texts = (p1 ++ t :: p2 ++ circularMarker (h a) :: p3)%list
           /\ length p1 = length before /\ length p2 = length between).
Proof.
  split; [|split; [|split; [|split; [|split]]]].
  - intros fuel val depth seen c seen'. apply formatValue_fuel_grows.
  - intros fuel a depth seen Ht. simpl.
    apply formatBody_guarded; [|done]. intros v d. apply formatValue_fuel_grows.
  - intros fuel a depth seen c seen' Ht Hfirst later depth' fuel' Hsub.
    apply formatValue_fuel_circular; [done|].
    apply Hsub. by eapply formatValue_fuel_seen_in.
  - intros fuel a depth seen. apply formatValue_fuel_circular.
  - intros fuel b depth seen text seen' Hd H member.
    destruct (h b) as [| | | |k elems|k fault|entries|members| | |props] eqn:Hb;
      try exact I.
    + by apply (array_inTurn h fuel b depth Hd k elems seen text seen' Hb).
    + intros Hs.
      by apply (map_inTurn h fuel b depth Hd entries seen text seen' Hb Hs).
    + intros Hs.
      by apply (set_inTurn h fuel b depth Hd members seen text seen' Hb Hs).
    + intros Hs Hnd.
      by apply (object_inTurn h fuel b depth Hd props seen text seen' Hb Hs Hnd).
  - intros fuel depth a before between behind seen texts seen'.
    apply later_member_marked.
Qed.

Lemma visited_value_marked_circular_witness :
  ∅ ⊆ ({[1]} ∪ ∅ : gset addr)
  /\ formatValue_fuel 2 cyclicObject (VRef 0) 0 ∅
     = formatBody (fun v d => guarded 0 (formatValue_fuel 1 cyclicObject v d))
                  cyclicObject (VRef 0) 0 ∅
  /\ formatValue_fuel 1 sharedPair (VRef 1) 1 ({[1]} ∪ ∅)
     = Some (Normal "[Circular]", {[1]} ∪ ∅)
  /\ formatValue_fuel 1 cyclicObject (VRef 0) 1 {[0]}
     = Some (Normal "[Circular]", {[0]})
  /\ (exists parts,
         inTurn (fun v => formatValue_fuel 3 sharedPair v 1) [VRef 1; VRef 1]
                ∅ parts ({[1]} ∪ ∅)
         /\ "Array(2) [{  }, [Circular]]" = arrayText Array [VRef 1; VRef 1] parts)
  /\ (exists p1 t p2 p3,
         ["{  }"; "[Circular]"] = (p1 ++ t :: p2 ++ "[Circular]" :: p3)%list
         /\ length p1 = 0 /\ length p2 = 0).
Proof.
  assert (H : formatValue_fuel 1 sharedPair (VRef 1) 1 ∅
              = Some (Normal "{  }", {[1]} ∪ ∅)) by reflexivity.
  split; [|split; [|split; [|split; [|split]]]].
  - exact (proj1 (visited_value_marked_circular sharedPair) 1 (VRef 1) 1 ∅ _ _ H).
  - exact (proj1 (proj2 (visited_value_marked_circular cyclicObject))
                 1 0 0 ∅ eq_refl).
  - exact (proj1 (proj2 (proj2 (visited_value_marked_circular sharedPair)))
                 1 1 1 ∅ (Normal "{  }") ({[1]} ∪ ∅) eq_refl H
                 ({[1]} ∪ ∅) 1 0 (reflexivity _)).
  - exact (proj1 (proj2 (proj2 (proj2 (visited_value_marked_circular cyclicObject))))
                 0 0 1 {[0]} eq_refl ltac:(set_solver)).
  - exact (proj1 (proj2 (proj2 (proj2 (proj2
                   (visited_value_marked_circular sharedPair)))))
                 3 0 0 ∅ "Array(2) [{  }, [Circular]]" ({[1]} ∪ ∅)
                 ltac:(lia) eq_refl).
  - apply (proj2 (proj2 (proj2 (proj2 (proj2
                   (visited_value_marked_circular sharedPair)))))
                 3 1 1 [] [] [] ∅ ["{  }"; "[Circular]"] ({[1]} ∪ ∅) eq_refl).
    apply (inTurn_cons _ (VRef 1) [VRef 1] ∅ "{  }" ({[1]} ∪ ∅)); [reflexivity|].
    apply (inTurn_cons _ (VRef 1) [] _ "[Circular]" ({[1]} ∪ ∅)); [reflexivity|].
    constructor.
Defined.

(** C10 as it is written fails.  In [[[[[o]]], o]] the object [o] occurs
    twice in the value graph, but the traversal never reaches the first
    occurrence, which lies below the depth bound: the second one is
    rendered in full, not as the marker. *)
Lemma occurrence_below_depth_counterexample :
  formatValue sharedBelow (VRef 0)
  = Normal "Array(2) [Array(1) [Array(1) [Array(1) […]]], {  }]"
  /\ ~ (forall h b x a text,
           h b = OArray Array [x; VRef a] -> tracked (h a) = true ->
           occursIn h x (VRef a) ->
           formatValue h (VRef b) = Normal text ->
           endsWith (", " +:+ circularMarker (h a) +:+ "]") text = true).
Proof.
  split; [vm_compute; reflexivity|].
  intros H.
  assert (Ho : occursIn sharedBelow (VRef 1) (VRef 4)).
  { apply (occurs_below sharedBelow 1 (VRef 2)); [by left|].
    apply (occurs_below sharedBelow 2 (VRef 3)); [by left|].
    apply (occurs_below sharedBelow 3 (VRef 4)); [by left|].
    constructor. }
  pose proof (H sharedBelow 0 (VRef 1) 4
                "Array(2) [Array(1) [Array(1) [Array(1) […]]], {  }]"
                eq_refl eq_refl Ho ltac:(vm_compute; reflexivity)) as Hend.
  vm_compute in Hend. discriminate Hend.
Qed.

(** ** Truncation *)

Example array_truncated_after_50 :
  formatValue fiftyOne (VRef 2)
  = Normal ("Array(51) [" +:+ join ", " (rendered 50) +:+ ", …]").
Proof. vm_compute. reflexivity. Qed.

Example object_truncated_after_50 :
  formatValue fiftyOne (VRef 3)
  = Normal ("{ " +:+ join ", "
                      (map (fun i => qq "'" +:+ decimal (Z.of_nat i) +:+ qq "': "
                                     +:+ decimal (Z.of_nat i)) (seq 0 50)
                       ++ ["…"])%list
            +:+ " }").
Proof. vm_compute. reflexivity. Qed.

(** The loops in general: with the counter at [i], a Set loop takes
    [51 - i] members before it stops. *)

Lemma mapM_pure f g xs s :
  pureOn xs f g -> mapM f xs s = Some (Normal (map g xs), s).
Proof.
  intros Hf. revert s. induction Hf as [|x xs Hx _ IH]; intros s; simpl; [done|].
  unfold bind. by rewrite Hx, IH.
Qed.

Lemma setLoop_pure f g members :
  pureOn members f g ->
  forall i parts s,
    i <= 50 ->
    setLoop f members i parts s
    = Some (Normal (parts ++ map g (take (51 - i) members)
                    ++ marker (51 - i <=? length members))%list, s).
Proof.
  intros Hf. induction Hf as [|v rest Hv _ IH]; intros i parts s Hi; simpl.
  { replace (51 - i) with (S (50 - i)) by lia. simpl. by rewrite app_nil_r. }
  unfold bind. rewrite Hv.
  replace (51 - i) with (S (50 - i)) by lia. simpl.
  destruct (50 <? S i) eqn:Hlt.
  - apply Nat.ltb_lt in Hlt. replace (50 - i) with 0 by lia.
    rewrite take_0. simpl. unfold ret. by rewrite <- app_assoc.
  - apply Nat.ltb_ge in Hlt. rewrite IH by lia.
    replace (51 - S i) with (50 - i) by lia.
    by rewrite <- app_assoc.
Qed.

Lemma numbers_pure fuel h depth zs :
  pureOn (map VNumber zs) (fun v => formatValue_fuel (S fuel) h v depth) numberText.
Proof. apply Forall_forall. intros v [z [-> _]]%list_elem_of_fmap. done. Qed.

Lemma numberText_numbers zs : map numberText (VNumber <$> zs) = map decimal zs.
Proof. induction zs as [|z zs IH]; simpl; [done|]. by rewrite <- IH. Qed.

(** Every array-like of more than 50 numbers, integers of the safe
    range: the first 50, then the marker. *)
Lemma array_of_numbers h a k zs :
  h a = OArray k (map VNumber zs) -> 50 < length zs -> Forall safeInteger zs ->
  formatValue h (VRef a)
  = Normal (arrayTag k +:+ "(" +:+ decimal (Z.of_nat (length zs)) +:+ ") ["
            +:+ join ", " (map decimal (take 50 zs)) +:+ ", …]").
Proof.
  intros Ha Hlen _. unfold formatValue. simpl. rewrite Ha. simpl.
  unfold bind. rewrite <- (fmap_take VNumber).
  rewrite (mapM_pure _ numberText) by apply (numbers_pure 2).
  unfold ret, lengthText. rewrite length_map.
  rewrite (proj2 (Nat.ltb_lt _ _) Hlen).
  rewrite numberText_numbers. reflexivity.
Qed.

(** Every Set of more than 50 such numbers: the first 51, then the
    marker. *)
Lemma set_of_numbers h a zs :
  h a = OSet (map VNumber zs) -> 50 < length zs -> Forall safeInteger zs ->
  formatValue h (VRef a)
  = Normal ("Set(" +:+ decimal (Z.of_nat (length zs)) +:+ ") { "
            +:+ join ", " (map decimal (take 51 zs) ++ ["…"])%list +:+ " }").
Proof.
  intros Ha Hlen _. unfold formatValue. simpl. rewrite Ha.
  unfold bind at 1. unfold seenHas.
  rewrite bool_decide_eq_false_2 by set_solver.
  unfold bind at 1. unfold seenAdd. simpl. unfold bind.
  rewrite (setLoop_pure _ numberText) by (apply (numbers_pure 2) || lia).
  assert (Hm : (51 - 0 <=? length (map VNumber zs)) = true).
  { apply Nat.leb_le. rewrite length_map. lia. }
  rewrite Hm. unfold ret, lengthText. rewrite length_map.
  change (51 - 0) with 51.
  rewrite <- (fmap_take VNumber), numberText_numbers. reflexivity.
Qed.

(** C4. A Set and a Map of 51 members: all 51 are rendered, the 51st
    included, and the truncation marker follows although nothing was left
    out.  The loops push the entry before they advance and test the
    counter ([++i > 50]), so they stop after 51 entries, where the array
    and the plain-object paths cut at 50. *)
Theorem set_and_map_render_51 :
  formatValue fiftyOne (VRef 0)
  = Normal ("Set(51) { " +:+ join ", " (rendered 51 ++ ["…"])%list +:+ " }")
  /\ formatValue fiftyOne (VRef 1)
     = Normal ("Map(51) { "
               +:+ join ", " (map (fun t => t +:+ " => " +:+ t) (rendered 51) ++ ["…"])%list
               +:+ " }").
Proof. split; vm_compute; reflexivity. Qed.

(** ** The depth bound *)

(** C5, as the code has it.  Beyond depth 2 a composite value is rendered
    without any recursive call, whatever the members are: an array-like as
    its tag and length followed by the ellipsis, a Map, a Set or a plain
    object met for the first time as [Map(…)], [Set(…)] or [{…}], and one
    that is already in [seen] as its circular marker, the membership test
    coming first.  Hence four nested activations, three of them expanding,
    serve every top-level call. *)
Theorem collapses_beyond_depth_2 (h : heap) :
  (forall self a depth seen,
      2 < depth -> composite (h a) = true ->
      formatBody self h (VRef a) depth seen
      = Some (if tracked (h a) && bool_decide (a ∈ seen)
              then (Normal (circularMarker (h a)), seen)
              else (Normal (collapsed (h a)),
                    if tracked (h a) then {[a]} ∪ seen else seen)))
  /\ (forall val fuel,
         4 <= fuel ->
         exists r, formatValue_fuel 4 h val 0 ∅ = Some r
                   /\ formatValue_fuel fuel h val 0 ∅ = Some r).
Proof.
  split.
  - intros self a depth seen Hd Hc. apply Nat.ltb_lt in Hd.
    unfold formatBody.
    destruct (h a) as [| | | |k elems|k fault|entries|members| | |props]; try done.
    all: simpl; unfold bind, seenHas, seenAdd; simpl.
    all: try destruct (bool_decide (a ∈ seen)); simpl.
    all: rewrite ?Hd; reflexivity.
  - intros val fuel Hf.
    apply (formatValue_fuel_enough fuel h val 0 ∅). lia.
Qed.

Lemma collapses_beyond_depth_2_witness :
  formatBody (fun _ _ _ => None) sharedDeep (VRef 3) 3 ∅
  = Some (Normal "{…}", {[3]} ∪ ∅)
  /\ exists r, formatValue_fuel 4 sharedDeep (VRef 0) 0 ∅ = Some r
               /\ formatValue_fuel 5 sharedDeep (VRef 0) 0 ∅ = Some r.
Proof.
  split.
  - exact (proj1 (collapses_beyond_depth_2 sharedDeep)
                 (fun _ _ _ => None) 3 3 ∅ ltac:(lia) eq_refl).
  - exact (proj2 (collapses_beyond_depth_2 sharedDeep) (VRef 0) 5 ltac:(lia)).
Defined.

(** C5 as it is written fails: the second occurrence of a shared object at
    depth 3 is rendered as [[Circular]], not as the ellipsis placeholder. *)
Lemma collapsed_placeholder_counterexample :
  formatValue sharedDeep (VRef 0)
  = Normal (qq "{ 'a': { 'b': { 'c': {…}, 'd': [Circular] } } }")
  /\ ~ (forall h a depth seen,
           2 < depth -> composite (h a) = true ->
           exists seen',
             formatValue_fuel 1 h (VRef a) depth seen
             = Some (Normal (collapsed (h a)), seen')).
Proof.
  split; [vm_compute; reflexivity|].
  intros H.
  destruct (H sharedDeep 3 3 {[3]} ltac:(lia) eq_refl) as [seen' Heq].
  vm_compute in Heq. discriminate Heq.
Qed.
(** ** Faults while formatting *)

Lemma bind_returns {A B} (m : fmt A) (k : A -> fmt B) :
  returns m -> (forall a, returns (k a)) -> returns (bind m k).
Proof.
  intros Hm Hk s c s'. unfold bind.
  destruct (m s) as [[[a|e] s1]|] eqn:E; [| |done].
  - apply Hk.
  - destruct (Hm _ _ _ E) as [a Ha]. discriminate Ha.
Qed.

Lemma ret_returns {T} (a : T) : returns (ret a).
Proof. intros s c s' [= <- <-]. by eexists. Qed.

Lemma lift_returns {T} (c : completion T) :
  (exists a, c = Normal a) -> returns (lift c).
Proof. intros [a ->]. apply ret_returns. Qed.

Lemma mapM_returns {A B} (f : A -> fmt B) (xs : list A) :
  Forall (fun x => returns (f x)) xs -> returns (mapM f xs).
Proof.
  induction 1 as [|x xs Hx _ IH]; simpl; [apply ret_returns|].
  apply bind_returns; [apply Hx|]. intros y.
  apply bind_returns; [apply IH|]. intros ys. apply ret_returns.
Qed.

Lemma mapLoop_returns f (entries : list (value * value)) :
  Forall (fun kv => returns (f (fst kv)) /\ returns (f (snd kv))) entries ->
  forall i parts, returns (mapLoop f entries i parts).
Proof.
  induction 1 as [|[k v] rest [Hk Hv] _ IH]; intros i parts; simpl;
    [apply ret_returns|].
  apply bind_returns; [apply Hk|]. intros sk.
  apply bind_returns; [apply Hv|]. intros sv.
  destruct (50 <? S i); [apply ret_returns | apply IH].
Qed.

Lemma setLoop_returns f (members : list value) :
  Forall (fun v => returns (f v)) members ->
  forall i parts, returns (setLoop f members i parts).
Proof.
  induction 1 as [|v rest Hv _ IH]; intros i parts; simpl;
    [apply ret_returns|].
  apply bind_returns; [apply Hv|]. intros sv.
  destruct (50 <? S i); [apply ret_returns | apply IH].
Qed.

Lemma readProp_quiet props k :
  Forall (fun kp => quietProp (snd kp)) props ->
  exists v, readProp props k = Normal v /\ quietValue v.
Proof.
  unfold readProp. induction 1 as [|[k' p] rest Hp _ IH]; simpl; [by eexists|].
  destruct (String.eqb k' k); [|exact IH].
  destruct p as [v|[v|e]]; simpl in Hp; [by eexists..|done].
Qed.

Lemma formatBody_returns (f : value -> nat -> fmt string) h val depth :
  quiet h -> quietValue val ->
  (forall v d, quietValue v -> returns (f v d)) ->
  returns (formatBody f h val depth).
Proof.
  intros Hq Hval Hf. unfold formatBody.
  destruct val as [| | | | | | |name|a]; try apply ret_returns.
  { apply bind_returns; [|intros; apply ret_returns].
    apply lift_returns. destruct name; [by eexists..|done]. }
  pose proof (Hq a) as Ha.
  destruct (h a) as [| |name message stack| |k elems|k fault|entries|members|
                     |byteLength|props];
    try apply ret_returns; simpl in Ha.
  - destruct name as [n|]; [|done]. destruct message as [m|]; [|done].
    destruct stack as [|t|]; [| |done].
    all: repeat (apply bind_returns; [by apply lift_returns; eexists|intros ?]).
    all: apply ret_returns.
  - destruct (2 <? depth); [apply ret_returns|].
    apply bind_returns; [|intros; apply ret_returns].
    apply mapM_returns, Forall_take.
    eapply Forall_impl; [exact Ha|]. intros v Hv. by apply Hf.
  - done.
  - apply bind_returns; [by intros s c s' [= <- <-]; eexists|].
    intros [|]; [apply ret_returns|].
    apply bind_returns; [by intros s c s' [= <- <-]; eexists|]. intros _.
    destruct (2 <? depth); [apply ret_returns|].
    apply bind_returns; [|intros; apply ret_returns].
    apply mapLoop_returns.
    eapply Forall_impl; [exact Ha|]. intros [k v] [Hk Hv]. split; by apply Hf.
  - apply bind_returns; [by intros s c s' [= <- <-]; eexists|].
    intros [|]; [apply ret_returns|].
    apply bind_returns; [by intros s c s' [= <- <-]; eexists|]. intros _.
    destruct (2 <? depth); [apply ret_returns|].
    apply bind_returns; [|intros; apply ret_returns].
    apply setLoop_returns.
    eapply Forall_impl; [exact Ha|]. intros v Hv. by apply Hf.
  - destruct byteLength as [n|]; [|done].
    apply bind_returns; [by apply lift_returns; eexists|intros ?].
    apply ret_returns.
  - apply bind_returns; [by intros s c s' [= <- <-]; eexists|].
    intros [|]; [apply ret_returns|].
    apply bind_returns; [by intros s c s' [= <- <-]; eexists|]. intros _.
    destruct (2 <? depth); [apply ret_returns|].
    apply bind_returns; [|intros; apply ret_returns].
    apply mapM_returns, Forall_forall. intros k _.
    destruct (readProp_quiet props k Ha) as (v & -> & Hv).
    intros s c s'. unfold bind at 1. simpl.
    apply (bind_returns (f v (depth + 1))); [by apply Hf|].
    intros; apply ret_returns.
Qed.

Lemma formatValue_fuel_returns fuel h val depth :
  quiet h -> quietValue val -> returns (formatValue_fuel fuel h val depth).
Proof.
  intros Hq. revert val depth. induction fuel as [|n IH]; intros val depth Hval.
  - by intros s c s'.
  - simpl. apply formatBody_returns; [done|done|]. intros v d. apply IH.
Qed.

Lemma formatValue_quiet h val :
  quiet h -> quietValue val -> exists text, formatValue h val = Normal text.
Proof.
  intros Hq Hval. destruct (formatValue_unfold h val) as [s' H].
  destruct (formatValue_fuel_returns 4 h val 0 Hq Hval _ _ _ H) as [text ->].
  by exists text.
Qed.


Lemma twoRows_quiet : quiet twoRows.
Proof.
  intros [|[|a]]; simpl; repeat constructor.
Defined.



(** ** [evalCode] *)









(** ** [console.table] *)

Lemma foldl_setAdd (acc ks : list string) :
  foldl setAdd acc ks = (acc ++ filter (fun k => k ∉ acc) (firstSeen ks))%list.
Proof.
  revert acc. induction ks as [|k rest IH]; intros acc; simpl.
  { by rewrite filter_nil, app_nil_r. }
  rewrite IH. unfold setAdd. case_bool_decide as Hin.
  - rewrite filter_cons_False by (intros Hn; by apply Hn).
    rewrite list_filter_filter_l; [done|].
    intros x Hx ->. by apply Hx.
  - rewrite filter_cons_True by done.
    rewrite <- app_assoc. simpl. do 2 f_equal.
    rewrite list_filter_filter. apply list_filter_iff.
    intros x. rewrite elem_of_app, list_elem_of_singleton. tauto.
Qed.

Lemma gatherKeys_firstSeen h rows :
  gatherKeys h rows = firstSeen (concat (map (rowKeys h) rows)).
Proof.
  unfold gatherKeys.
  assert (H : forall acc,
             foldl (fun set r => foldl setAdd set (rowKeys h r)) acc rows
             = foldl setAdd acc (concat (map (rowKeys h) rows))).
  { induction rows as [|r rest IH]; intros acc; simpl; [done|].
    by rewrite IH, foldl_app. }
  rewrite H, foldl_setAdd. simpl.
  rewrite (list_filter_iff _ (fun _ => True)).
  - induction (firstSeen _) as [|x l IHl]; [done|].
    by rewrite filter_cons_True, IHl.
  - intros x. split; [done|]. intros _. apply not_elem_of_nil.
Qed.

Lemma formatCells_text M h r headers line :
  formatCells M h r headers = Normal line -> Forall2 (cellText M h r) headers line.
Proof.
  revert line. induction headers as [|k rest IH]; intros line; simpl.
  { intros [= <-]. constructor. }
  destruct (rowCell M h r k) as [v|e] eqn:Hc; [|done].
  destruct (formatValue h v) as [text|e] eqn:Hf; [|done].
  destruct (formatCells M h r rest) as [texts|e]; [|done].
  intros [= <-]. constructor; [by exists v | by apply IH].
Qed.

Lemma formatRows_text M h rows headers cells :
  formatRows M h rows headers = Normal cells -> tableText M h rows headers cells.
Proof.
  revert cells. induction rows as [|r rest IH]; intros cells; simpl.
  { intros [= <-]. constructor. }
  destruct (formatCells M h r headers) as [line|e] eqn:Hc; [|done].
  destruct (formatRows M h rest headers) as [more|e]; [|done].
  intros [= <-]. constructor; [by apply formatCells_text | by apply IH].
Qed.

Lemma nth_quiet (elems : list value) i :
  Forall quietValue elems -> quietValue (nth i elems VUndefined).
Proof.
  intros H. revert i. induction H as [|v rest Hv _ IH]; intros [|i]; simpl; done.
Qed.

Lemma getOwn_quiet h v k :
  quiet h -> exists w, getOwn h v k = Normal w /\ quietValue w.
Proof.
  intros Hq.
  destruct v as [| |s| | | | | |a]; simpl;
    try (eexists; split; [reflexivity|exact I]).
  - destruct (keyIndex k _); eexists; (split; [reflexivity|exact I]).
  - pose proof (Hq a) as Ha.
    destruct (h a) as [| | | |kind elems| | | | | |props];
      try (eexists; split; [reflexivity|exact I]).
    + destruct (keyIndex k _); [|eexists; split; [reflexivity|exact I]].
      eexists. split; [reflexivity|]. by apply nth_quiet.
    + exact (readProp_quiet props k Ha).
Qed.

Lemma rowCell_quiet M h v k :
  quiet h -> quietMembers M ->
  exists w, rowCell M h (RowValue v) k = Normal w /\ quietValue w.
Proof.
  intros Hq [Hb _]. simpl. destruct (truthy v) eqn:Hv.
  - unfold get. case_bool_decide; [by apply getOwn_quiet|apply Hb].
  - exists v. split; [done|]. by destruct v as [| | | | | | |[]|].
Qed.

Lemma formatCells_quiet M h v headers :
  quiet h -> quietMembers M ->
  exists line, formatCells M h (RowValue v) headers = Normal line.
Proof.
  intros Hq HM. induction headers as [|k rest [line IH]]; [by eexists|].
  cbn [formatCells].
  destruct (rowCell_quiet M h v k Hq HM) as (w & -> & Hw).
  destruct (formatValue_quiet h w Hq Hw) as [text ->].
  rewrite IH. by eexists.
Qed.

Lemma formatRows_quiet M h elems headers :
  quiet h -> quietMembers M ->
  exists cells, formatRows M h (map RowValue elems) headers = Normal cells.
Proof.
  intros Hq HM. induction elems as [|v rest [cells IH]]; [by eexists|].
  cbn [map formatRows].
  destruct (formatCells_quiet M h v headers Hq HM) as [line ->].
  rewrite IH. by eexists.
Qed.

(** C8, as the code has it.  For an array of rows, a column list that is
    not empty is used verbatim as the headers; with no column list, or
    an empty one, the headers are the keys of the rows in first-seen
    order; every cell is the formatter's text of [row && row[header]],
    a read that goes on to what the row inherits when the row has no
    property of that name: in the line of a row that is a plain object,
    the cell under a header is the text of the row's own property of
    that name, and of what the engine finds beyond the own properties
    when there is none.  A table is sent when no read and no conversion
    throws.  The table of
    [[{a:1,b:2},{a:3,b:4}]] has the headers [a, b] and the rows
    [["1","2"],["3","4"]], whatever the rows inherit. *)
Theorem consoleTable_of_array (M : members) (h : heap) (now : Z) (a : addr)
    (elems : list value) :
  h a = OArray Array elems ->
  let rows := map RowValue elems in
  (quiet h -> quietMembers M ->
   forall columns, exists msg, consoleTable M h now (VRef a) columns = Normal msg)
  /\ (forall c cs msg,
         consoleTable M h now (VRef a) (Some (c :: cs)) = Normal msg ->
         exists cells, msg = MsgTable (c :: cs) cells now
                       /\ tableText M h rows (c :: cs) cells)
  /\ (forall columns msg,
         columns = None \/ columns = Some [] ->
         consoleTable M h now (VRef a) columns = Normal msg ->
         let headers := firstSeen (concat (map (rowKeys h) rows)) in
         exists cells, msg = MsgTable headers cells now
                       /\ tableText M h rows headers cells)
  /\ consoleTable M twoRows now (VRef 0) None
     = Normal (MsgTable ["a"; "b"] [["1"; "2"]; ["3"; "4"]] now)
  /\ (forall columns headers cells ts i j b props k line,
         consoleTable M h now (VRef a) columns
         = Normal (MsgTable headers cells ts) ->
         elems !! i = Some (VRef b) -> h b = OObject props ->
         cells !! i = Some line -> headers !! j = Some k ->
         exists v text,
           (if bool_decide (k ∈ keysOf props) then readProp props k
            else beyond M h (VRef b) k) = Normal v
           /\ formatValue h v = Normal text
           /\ line !! j = Some text).
Proof.
  intros Ha rows. split; [|split; [|split; [|split]]].
  - intros Hq HM columns. unfold consoleTable, normalize. rewrite Ha. fold rows.
    destruct (formatRows_quiet M h elems (resolveHeaders h rows columns) Hq HM)
      as [cells Hcells].
    fold rows in Hcells. rewrite Hcells. by eexists.
  - intros c cs msg. unfold consoleTable, normalize. rewrite Ha. simpl.
    fold rows.
    destruct (formatRows M h rows (c :: cs)) as [cells|e] eqn:Hr; [|done].
    intros [= <-]. exists cells. split; [done|]. by apply formatRows_text.
  - intros columns msg Hc. unfold consoleTable, normalize. rewrite Ha.
    fold rows.
    assert (Hh : resolveHeaders h rows columns
                 = firstSeen (concat (map (rowKeys h) rows))).
    { destruct Hc as [-> | ->]; simpl; apply gatherKeys_firstSeen. }
    rewrite Hh.
    destruct (formatRows M h rows _) as [cells|e] eqn:Hr; [|done].
    intros [= <-]. exists cells. split; [done|]. by apply formatRows_text.
  - reflexivity.
  - intros columns headers cells ts i j b props k line H Hv Hb Hline Hk.
    unfold consoleTable, normalize in H. rewrite Ha in H. fold rows in H.
    destruct (formatRows M h rows _) as [cells'|e] eqn:Hr; [|done].
    injection H as <- <- <-.
    apply formatRows_text in Hr. unfold tableText in Hr.
    assert (Hrow : rows !! i = Some (RowValue (VRef b))).
    { unfold rows. by rewrite list_lookup_fmap, Hv. }
    pose proof (Forall2_lookup_lr _ _ _ _ _ _ Hr Hrow Hline) as Hcells.
    destruct (Forall2_lookup_l _ _ _ _ _ Hcells Hk)
      as (text & Htext & (c & Hc & Hf)).
    exists c, text. split; [|done].
    simpl in Hc. unfold get in Hc. simpl in Hc. by rewrite Hb in Hc.
Qed.

Lemma inheritsFromObject_quiet : quietMembers inheritsFromObject.
Proof.
  split; [intros h v k|intros k]; simpl;
    destruct (String.eqb k "constructor"); by eexists.
Defined.

Lemma consoleTable_of_array_witness :
  (exists msg,
      consoleTable inheritsFromObject twoRows 5 (VRef 0) (Some ["b"; "a"])
      = Normal msg)
  /\ (exists cells,
         MsgTable ["b"] [["2"]; ["4"]] 5 = MsgTable ["b"] cells 5
         /\ tableText inheritsFromObject twoRows
                      [RowValue (VRef 1); RowValue (VRef 2)] ["b"] cells)
  /\ (exists cells,
         MsgTable ["a"; "b"] [["1"; "2"]; ["3"; "4"]] 5
         = MsgTable (firstSeen (concat (map (rowKeys twoRows)
                                            [RowValue (VRef 1); RowValue (VRef 2)])))
                    cells 5
         /\ tableText inheritsFromObject twoRows
                      [RowValue (VRef 1); RowValue (VRef 2)]
                      (firstSeen (concat (map (rowKeys twoRows)
                                              [RowValue (VRef 1); RowValue (VRef 2)])))
                      cells)
  /\ (exists v text,
         beyond inheritsFromObject twoRows (VRef 2) "constructor" = Normal v
         /\ formatValue twoRows v = Normal text
         /\ ["3"; "[Function Object]"] !! 1 = Some text).
Proof.
  split; [|split; [|split]].
  - exact (proj1 (consoleTable_of_array inheritsFromObject twoRows 5 0
                    [VRef 1; VRef 2] eq_refl)
                 twoRows_quiet inheritsFromObject_quiet (Some ["b"; "a"])).
  - exact (proj1 (proj2 (consoleTable_of_array inheritsFromObject twoRows 5 0
                           [VRef 1; VRef 2] eq_refl))
                 "b" [] _ eq_refl).
  - exact (proj1 (proj2 (proj2
                   (consoleTable_of_array inheritsFromObject twoRows 5 0
                      [VRef 1; VRef 2] eq_refl)))
                 None _ (or_introl eq_refl) eq_refl).
  - exact (proj2 (proj2 (proj2 (proj2
                   (consoleTable_of_array inheritsFromObject twoRows 5 0
                      [VRef 1; VRef 2] eq_refl))))
                 (Some ["a"; "constructor"]) ["a"; "constructor"]
                 [["1"; "[Function Object]"]; ["3"; "[Function Object]"]] 5%Z
                 1 1 2 [("a", Data (VNumber 3)); ("b", Data (VNumber 4))]
                 "constructor" ["3"; "[Function Object]"]
                 eq_refl eq_refl eq_refl eq_refl eq_refl).
Defined.

(** C8 as it is written fails for an explicit column list that is empty:
    the headers are the keys of the rows, not the list supplied. *)
Lemma consoleTable_empty_columns_counterexample :
  consoleTable inheritsFromObject twoRows 0 (VRef 0) (Some [])
  = Normal (MsgTable ["a"; "b"] [["1"; "2"]; ["3"; "4"]] 0)
  /\ ~ (forall M h now a elems (columns headers : list string) cells,
           h a = OArray Array elems ->
           consoleTable M h now (VRef a) (Some columns)
           = Normal (MsgTable headers cells now) ->
           headers = columns).
Proof.
  split; [reflexivity|].
  intros H.
  discriminate (H inheritsFromObject twoRows 0%Z 0 [VRef 1; VRef 2] [] ["a"; "b"]
                    [["1"; "2"]; ["3"; "4"]] eq_refl eq_refl).
Qed.

(** A column that no row has as a property of its own is not empty for
    that: the read goes on to what the rows inherit. *)
Example inherited_member_in_table :
  consoleTable inheritsFromObject twoRows 0 (VRef 0) (Some ["a"; "constructor"])
  = Normal (MsgTable ["a"; "constructor"]
                     [["1"; "[Function Object]"]; ["3"; "[Function Object]"]] 0).
Proof. reflexivity. Qed.

(** ** [resolveSpec] *)

Lemma resolveSpec_locator s :
  trim s = s -> isLocator s = true -> resolveSpec s = s.
Proof. intros Ht Hl. unfold resolveSpec. by rewrite Ht, Hl. Qed.

Lemma resolveSpec_aliases :
  Forall (fun entry => resolveSpec (fst entry) = cdn +:+ snd entry) aliasMap.
Proof. repeat constructor. Qed.

Lemma resolveSpec_fallback name :
  trim name = name -> isLocator name = false ->
  assoc aliasMap name = None -> assoc objectPrototype name = None ->
  resolveSpec name = cdn +:+ name +:+ "@latest".
Proof.
  intros Ht Hl Ha Hp. unfold resolveSpec, mapGet. by rewrite Ht, Hl, Ha, Hp.
Qed.

Example resolveSpec_samples :
  map resolveSpec ["HTTPS://example.org/x.js"; "/lib/a.js"; "./a.js"; "../a.js";
                   "lodash"; "rxjs"; "some-unknown-pkg"]
  = ["HTTPS://example.org/x.js"; "/lib/a.js"; "./a.js"; "../a.js";
     "https://cdn.jsdelivr.net/npm/lodash@latest/lodash.min.js";
     "https://cdn.jsdelivr.net/npm/rxjs@7/dist/bundles/rxjs.umd.min.js";
     "https://cdn.jsdelivr.net/npm/some-unknown-pkg@latest"].
Proof. vm_compute. reflexivity. Qed.

(** C9. The bare name [constructor] is in no alias table, yet it does not
    resolve to [constructor@latest]: [map[name]] finds the member that the
    object literal inherits from [Object.prototype], which is truthy, and
    its text is spliced into the locator. *)
Theorem resolveSpec_inherited_name :
  resolveSpec "constructor"
  = "https://cdn.jsdelivr.net/npm/function Object() { [native code] }"
  /\ assoc aliasMap "constructor" = None
  /\ resolveSpec "constructor" <> cdn +:+ "constructor" +:+ "@latest".
Proof. split; [|split]; [vm_compute; reflexivity | reflexivity | discriminate]. Qed.

(** ** The terminal's handler *)



Lemma onmessage_result_known now id formatted ts t startedAt :
  pending t !! id = Some startedAt ->
  onmessage now (MsgResult (Some id) formatted ts) t
  = {| pending := delete id (pending t);
       output := output t ++ [LineResult formatted ts (Some (Z.max 0 (now - startedAt)))];
       status := StatusDone (Z.max 0 (now - startedAt)) |}.
Proof. intros H. unfold onmessage. by rewrite H. Qed.

Lemma onmessage_result_unknown now id formatted ts t :
  id ≫= (fun i => pending t !! i) = None ->
  onmessage now (MsgResult id formatted ts) t
  = {| pending := pending t;
       output := output t ++ [LineResult formatted ts None];
       status := status t |}.
Proof. intros H. unfold onmessage. destruct id as [i|]; simpl in H; by rewrite ?H. Qed.

Example result_event_timed :
  onmessage 250 (MsgResult (Some "s1") "2" 0) oneRunning
  = {| pending := delete "s1" {["s1" := 100%Z]};
       output := [LineResult "2" 0 (Some 150%Z)];
       status := StatusDone 150 |}.
Proof. reflexivity. Qed.

(** C7. A Fault whose id is pending is displayed, but the handler of
    [error] messages never consults [pending]: no elapsed time is computed
    and the entry stays in the map, where the handler of [result] messages
    computes [max(0, now - startedAt)] and deletes it. *)
Theorem fault_event_keeps_pending_entry :
  (forall now id formatted ts t,
      onmessage now (MsgError id formatted ts) t
      = {| pending := pending t;
           output := output t ++ [LineError formatted ts];
           status := StatusText "error" |})
  /\ pending (onmessage 250 (MsgError (Some "s1") "boom" 0) oneRunning) !! "s1"
     = Some 100%Z.
Proof. split; [intros; reflexivity | reflexivity]. Qed.

(* ================================================================== *)
(** * Part III: further properties of the code                         *)
(* ================================================================== *)

(** ** The formatter: what the [seen] set holds *)

Lemma bind_keeps {A B} Q (m : fmt A) (k : A -> fmt B) :
  keeps Q m -> (forall a, keeps Q (k a)) -> keeps Q (bind m k).
Proof.
  intros Hm Hk s c s'. unfold bind.
  destruct (m s) as [[[a|e1] s1]|] eqn:E; [| |done].
  - intros H2 HQ. eapply Hk; [exact H2|]. by eapply Hm.
  - intros [= <- <-] HQ. by eapply Hm.
Qed.

Lemma ret_keeps {T} Q (a : T) : keeps Q (ret a).
Proof. by intros s c s' [= <- <-]. Qed.

Lemma lift_keeps {T} Q (c : completion T) : keeps Q (lift c).
Proof. destruct c; by intros s c' s' [= <- <-]. Qed.

Lemma raise_keeps {T} Q (e : value) : keeps Q (raise e : fmt T).
Proof. by intros s c s' [= <- <-]. Qed.

Ltac keeps_leaf :=
  leaf ltac:(first [ apply ret_keeps | apply lift_keeps | apply raise_keeps
                   | apply bind_keeps; [|intros ?] ]).

Lemma mapM_keeps {A B} Q (f : A -> fmt B) xs :
  (forall x, keeps Q (f x)) -> keeps Q (mapM f xs).
Proof.
  intros Hf. induction xs as [|x xs IH]; simpl; [apply ret_keeps|].
  apply bind_keeps; [apply Hf|]. intros y.
  apply bind_keeps; [apply IH|]. intros ys. apply ret_keeps.
Qed.

Lemma mapLoop_keeps Q f entries :
  (forall x, keeps Q (f x)) -> forall i parts, keeps Q (mapLoop f entries i parts).
Proof.
  intros Hf. induction entries as [|[k v] rest IH]; intros i parts; simpl;
    [apply ret_keeps|].
  apply bind_keeps; [apply Hf|]. intros sk.
  apply bind_keeps; [apply Hf|]. intros sv.
  destruct (50 <? S i); [apply ret_keeps | apply IH].
Qed.

Lemma setLoop_keeps Q f members :
  (forall x, keeps Q (f x)) -> forall i parts, keeps Q (setLoop f members i parts).
Proof.
  intros Hf. induction members as [|v rest IH]; intros i parts; simpl;
    [apply ret_keeps|].
  apply bind_keeps; [apply Hf|]. intros sv.
  destruct (50 <? S i); [apply ret_keeps | apply IH].
Qed.

Lemma seenAdd_onlyTracked h a :
  tracked (h a) = true -> keeps (onlyTracked h) (seenAdd a).
Proof.
  intros Ht s c s' [= <- <-] HQ b Hb.
  apply elem_of_union in Hb as [Hb%elem_of_singleton|Hb]; [by subst|by apply HQ].
Qed.

Lemma formatBody_onlyTracked self h val depth :
  (forall v d, keeps (onlyTracked h) (self v d)) ->
  keeps (onlyTracked h) (formatBody self h val depth).
Proof.
  intros Hf. unfold formatBody.
  destruct val as [| | | | | | | |a]; keeps_leaf.
  destruct (h a) as [| | | |k elems|k fault|entries|members| | |props] eqn:Ha;
    keeps_leaf.
  - destruct (2 <? depth); [apply ret_keeps|].
    apply bind_keeps; [|intros; apply ret_keeps].
    apply mapM_keeps. intros v. apply Hf.
  - apply bind_keeps; [by intros s c s' [= <- <-]|].
    intros [|]; [apply ret_keeps|].
    apply bind_keeps; [apply seenAdd_onlyTracked; by rewrite Ha|]. intros _.
    destruct (2 <? depth); [apply ret_keeps|].
    apply bind_keeps; [|intros; apply ret_keeps].
    apply mapLoop_keeps. intros v. apply Hf.
  - apply bind_keeps; [by intros s c s' [= <- <-]|].
    intros [|]; [apply ret_keeps|].
    apply bind_keeps; [apply seenAdd_onlyTracked; by rewrite Ha|]. intros _.
    destruct (2 <? depth); [apply ret_keeps|].
    apply bind_keeps; [|intros; apply ret_keeps].
    apply setLoop_keeps. intros v. apply Hf.
  - apply bind_keeps; [by intros s c s' [= <- <-]|].
    intros [|]; [apply ret_keeps|].
    apply bind_keeps; [apply seenAdd_onlyTracked; by rewrite Ha|]. intros _.
    destruct (2 <? depth); [apply ret_keeps|].
    apply bind_keeps; [|intros; apply ret_keeps].
    apply mapM_keeps. intros k.
    apply bind_keeps; [apply lift_keeps|]. intros v.
    apply bind_keeps; [apply Hf|]. intros; apply ret_keeps.
Qed.

Lemma formatValue_fuel_onlyTracked fuel h val depth :
  keeps (onlyTracked h) (formatValue_fuel fuel h val depth).
Proof.
  revert val depth. induction fuel as [|n IH]; intros val depth.
  - by intros s c s'.
  - simpl. apply formatBody_onlyTracked. intros v d. apply IH.
Qed.

(** X2. The [seen] set of a traversal holds Maps, Sets and plain objects
    only: an array-like, a Date, a RegExp, an Error, a buffer, a view or a
    Promise is never recorded, at any depth. *)
Theorem seen_holds_tracked_values_only (h : heap) fuel val depth seen c seen' :
  onlyTracked h seen ->
  formatValue_fuel fuel h val depth seen = Some (c, seen') ->
  onlyTracked h seen'.
Proof. intros HQ H. by eapply formatValue_fuel_onlyTracked. Qed.

Lemma seen_holds_tracked_values_only_witness :
  onlyTracked sharedPair ({[1]} ∪ ∅).
Proof.
  apply (seen_holds_tracked_values_only sharedPair 4 (VRef 0) 0 ∅
           (Normal "Array(2) [{  }, [Circular]]") ({[1]} ∪ ∅)).
  - intros a Ha. by apply elem_of_empty in Ha.
  - vm_compute. reflexivity.
Defined.

(** ** The formatter: collections below the truncation bound *)

Lemma mapM_pure_on {A B} (f : A -> fmt B) (g : A -> B) xs s :
  Forall (fun x => forall s, f x s = Some (Normal (g x), s)) xs ->
  mapM f xs s = Some (Normal (map g xs), s).
Proof.
  intros Hf. revert s. induction Hf as [|x xs Hx _ IH]; intros s; simpl; [done|].
  unfold bind. by rewrite Hx, IH.
Qed.

Lemma mapLoop_pure f g entries :
  pureOn (map fst entries) f g -> pureOn (map snd entries) f g ->
  forall i parts s,
    i <= 50 ->
    mapLoop f entries i parts s
    = Some (Normal (parts
                    ++ map (fun kv => g (fst kv) +:+ " => " +:+ g (snd kv))
                           (take (51 - i) entries)
                    ++ marker (51 - i <=? length entries))%list, s).
Proof.
  unfold pureOn. induction entries as [|[k v] rest IH]; intros Hk Hv i parts s Hi.
  { simpl. replace (51 - i) with (S (50 - i)) by lia. simpl. by rewrite app_nil_r. }
  simpl in Hk, Hv. apply Forall_cons in Hk as [Hk Hks]. apply Forall_cons in Hv as [Hv Hvs].
  simpl. unfold bind. rewrite Hk, Hv.
  replace (51 - i) with (S (50 - i)) by lia. simpl.
  destruct (50 <? S i) eqn:Hlt.
  - apply Nat.ltb_lt in Hlt. replace (50 - i) with 0 by lia.
    rewrite take_0. simpl. unfold ret. by rewrite <- app_assoc.
  - apply Nat.ltb_ge in Hlt. rewrite (IH Hks Hvs) by lia.
    replace (51 - S i) with (50 - i) by lia.
    by rewrite <- app_assoc.
Qed.

Lemma numberEntries_text zs :
  map (fun kv => numberText (fst kv) +:+ " => " +:+ numberText (snd kv))
      (numberEntries zs)
  = map entryText zs.
Proof. unfold numberEntries. rewrite map_map. done. Qed.

Lemma numberEntries_pure fuel h depth zs :
  pureOn (map fst (numberEntries zs))
         (fun v => formatValue_fuel (S fuel) h v depth) numberText
  /\ pureOn (map snd (numberEntries zs))
            (fun v => formatValue_fuel (S fuel) h v depth) numberText.
Proof.
  unfold numberEntries. rewrite !map_map. split.
  - apply Forall_forall. intros v [z [-> _]]%list_elem_of_fmap. done.
  - apply Forall_forall. intros v [z [-> _]]%list_elem_of_fmap. done.
Qed.

Lemma readProp_numberProps kzs k z :
  NoDup (map fst kzs) -> (k, z) ∈ kzs ->
  readProp (numberProps kzs) k = Normal (VNumber z).
Proof.
  unfold readProp. induction kzs as [|[k' z'] rest IH]; simpl; intros Hnd Hin.
  { by apply elem_of_nil in Hin. }
  apply NoDup_cons in Hnd as [Hk' Hnd].
  apply elem_of_cons in Hin as [[= -> ->]|Hin].
  - by rewrite String.eqb_refl.
  - destruct (String.eqb k' k) eqn:E; [|by apply IH].
    apply String.eqb_eq in E. subst. exfalso. apply Hk'.
    apply list_elem_of_fmap. by exists (k, z).
Qed.

(** X3. A collection of at most 50 members is rendered in full and
    without a truncation marker, the empty one included: shown for
    array-likes and Sets of numbers, Maps from numbers to numbers and
    plain objects whose properties hold numbers, the numbers being
    integers of the safe range, which print in full. *)
Theorem small_collections_rendered_in_full (h : heap) (a : addr) :
  (forall k zs,
      h a = OArray k (map VNumber zs) -> length zs <= 50 ->
      Forall safeInteger zs ->
      formatValue h (VRef a)
      = Normal (arrayTag k +:+ "(" +:+ decimal (Z.of_nat (length zs)) +:+ ") ["
                +:+ join ", " (map decimal zs) +:+ "]"))
  /\ (forall zs,
         h a = OSet (map VNumber zs) -> length zs <= 50 ->
         Forall safeInteger zs ->
         formatValue h (VRef a)
         = Normal ("Set(" +:+ decimal (Z.of_nat (length zs)) +:+ ") { "
                   +:+ join ", " (map decimal zs) +:+ " }"))
  /\ (forall zs,
         h a = OMap (numberEntries zs) -> length zs <= 50 ->
         Forall (fun kv => safeInteger (fst kv) /\ safeInteger (snd kv)) zs ->
         formatValue h (VRef a)
         = Normal ("Map(" +:+ decimal (Z.of_nat (length zs)) +:+ ") { "
                   +:+ join ", " (map entryText zs) +:+ " }"))
  /\ (forall kzs,
         h a = OObject (numberProps kzs) -> NoDup (map fst kzs) ->
         length kzs <= 50 ->
         Forall (fun kz => safeInteger (snd kz)) kzs ->
         formatValue h (VRef a)
         = Normal ("{ " +:+ join ", " (map propText kzs) +:+ " }")).
Proof.
  split; [|split; [|split]].
  - intros k zs Ha Hlen _. unfold formatValue. simpl. rewrite Ha. simpl.
    unfold bind. rewrite take_ge by (rewrite length_map; lia).
    rewrite (mapM_pure _ numberText) by apply (numbers_pure 2).
    unfold ret, lengthText. rewrite length_map.
    rewrite (proj2 (Nat.ltb_ge _ _)) by lia.
    rewrite numberText_numbers. reflexivity.
  - intros zs Ha Hlen _. unfold formatValue. simpl. rewrite Ha.
    unfold bind at 1. unfold seenHas.
    rewrite bool_decide_eq_false_2 by set_solver.
    unfold bind at 1. unfold seenAdd. simpl. unfold bind.
    rewrite (setLoop_pure _ numberText) by (apply (numbers_pure 2) || lia).
    assert (Hm : (51 - 0 <=? length (map VNumber zs)) = false).
    { apply Nat.leb_gt. rewrite length_map. lia. }
    rewrite Hm. unfold ret, lengthText. rewrite length_map.
    rewrite take_ge by (rewrite length_map; lia).
    rewrite numberText_numbers. simpl. rewrite app_nil_r. reflexivity.
  - intros zs Ha Hlen _. unfold formatValue. simpl. rewrite Ha.
    unfold bind at 1. unfold seenHas.
    rewrite bool_decide_eq_false_2 by set_solver.
    unfold bind at 1. unfold seenAdd. simpl. unfold bind.
    destruct (numberEntries_pure 2 h 1 zs) as [Hk Hv].
    rewrite (mapLoop_pure _ numberText _ Hk Hv) by lia.
    assert (Hm : (51 - 0 <=? length (numberEntries zs)) = false).
    { apply Nat.leb_gt. unfold numberEntries. rewrite length_map. lia. }
    rewrite Hm. unfold ret, lengthText.
    rewrite take_ge by (unfold numberEntries; rewrite length_map; lia).
    rewrite numberEntries_text. unfold numberEntries at 1. rewrite length_map.
    simpl. rewrite app_nil_r. reflexivity.
  - intros kzs Ha Hnd Hlen _. unfold formatValue. simpl. rewrite Ha.
    unfold bind at 1. unfold seenHas.
    rewrite bool_decide_eq_false_2 by set_solver.
    unfold bind at 1. unfold seenAdd. simpl. unfold bind at 1.
    assert (Hkeys : keysOf (numberProps kzs) = map fst kzs).
    { unfold keysOf, numberProps. by rewrite map_map. }
    rewrite Hkeys, take_ge by (rewrite length_map; lia).
    rewrite (mapM_pure_on _ (fun k => JSON_stringify k +:+ ": "
               +:+ match readProp (numberProps kzs) k with
                   | Normal v => numberText v
                   | Throw _ => EmptyString
                   end)).
    + unfold ret. rewrite length_map.
      rewrite (proj2 (Nat.ltb_ge _ _)) by lia.
      do 3 f_equal. rewrite map_map. f_equal. apply map_ext_in.
      intros [k z] Hin. simpl.
      rewrite (readProp_numberProps kzs k z Hnd) by (by apply list_elem_of_In).
      reflexivity.
    + apply Forall_forall. intros k [[k' z] [-> Hin]]%list_elem_of_fmap s. simpl.
      unfold bind. rewrite (readProp_numberProps kzs k' z Hnd Hin). reflexivity.
Qed.

Lemma small_collections_rendered_in_full_witness :
  formatValue smallOnes (VRef 0) = Normal "Uint8Array(3) [1, 2, 3]"
  /\ formatValue smallOnes (VRef 1) = Normal "Set(0) {  }"
  /\ formatValue smallOnes (VRef 2) = Normal "Map(1) { 1 => 2 }"
  /\ formatValue smallOnes (VRef 3) = Normal (qq "{ 'a': 1, 'b': 2 }").
Proof.
  split; [|split; [|split]].
  - exact (proj1 (small_collections_rendered_in_full smallOnes 0)
                 Uint8Array [1; 2; 3]%Z eq_refl ltac:(simpl; lia)
                 ltac:(repeat constructor; unfold safeInteger; lia)).
  - exact (proj1 (proj2 (small_collections_rendered_in_full smallOnes 1))
                 [] eq_refl ltac:(simpl; lia) ltac:(constructor)).
  - exact (proj1 (proj2 (proj2 (small_collections_rendered_in_full smallOnes 2)))
                 [(1, 2)]%Z eq_refl ltac:(simpl; lia)
                 ltac:(repeat constructor; unfold safeInteger; simpl; lia)).
  - exact (proj2 (proj2 (proj2 (small_collections_rendered_in_full smallOnes 3)))
                 [("a", 1); ("b", 2)]%Z eq_refl
                 ltac:(simpl; refine (bool_decide_unpack _ _); vm_compute; exact I)
                 ltac:(simpl; lia)
                 ltac:(repeat constructor; unfold safeInteger; simpl; lia)).
Defined.

(** ** [console.table]: the shape of the table *)

Lemma formatCells_length M h r headers line :
  formatCells M h r headers = Normal line -> length line = length headers.
Proof.
  intros H. apply formatCells_text in H. symmetry. by eapply Forall2_length.
Qed.

Lemma formatRows_shape M h rows headers cells :
  formatRows M h rows headers = Normal cells ->
  length cells = length rows
  /\ Forall (fun line => length line = length headers) cells.
Proof.
  intros H. apply formatRows_text in H. unfold tableText in H. split.
  - symmetry. by eapply Forall2_length.
  - induction H as [|r line rows cells Hl _ IH]; constructor; [|done].
    symmetry. by eapply Forall2_length.
Qed.

(** X5. Whatever the data and the column list, a table that is sent is
    rectangular: one line of cells for each row that the normalisation of
    lines 94-101 yields, and in every line one cell for each header. *)
Theorem consoleTable_rectangular (M : members) (h : heap) (now : Z)
    (data : value) (columns : option (list string)) headers cells ts :
  consoleTable M h now data columns = Normal (MsgTable headers cells ts) ->
  ts = now
  /\ Forall (fun line => length line = length headers) cells
  /\ exists rows, normalize h data = Normal rows
                  /\ length cells = length rows
                  /\ headers = resolveHeaders h rows columns.
Proof.
  unfold consoleTable.
  destruct (normalize h data) as [rows|e]; [|done].
  destruct (formatRows M h rows _) as [cells'|e] eqn:Hr; [|done].
  intros [= <- <- <-].
  destruct (formatRows_shape _ _ _ _ _ Hr) as [Hlen Hall].
  split; [done|]. split; [done|]. by exists rows.
Qed.

Lemma consoleTable_rectangular_witness :
  5%Z = 5%Z
  /\ Forall (fun line => length line = length ["a"; "b"]) [["1"; "2"]; ["3"; "4"]]
  /\ exists rows, normalize twoRows (VRef 0) = Normal rows
                  /\ length [["1"; "2"]; ["3"; "4"]] = length rows
                  /\ ["a"; "b"] = resolveHeaders twoRows rows None.
Proof.
  exact (consoleTable_rectangular inheritsFromObject twoRows 5 (VRef 0) None
           ["a"; "b"] [["1"; "2"]; ["3"; "4"]] 5 eq_refl).
Defined.

(** ** [console.table]: the headers gathered from the rows *)

Lemma firstSeen_elem ks k : k ∈ firstSeen ks <-> k ∈ ks.
Proof.
  induction ks as [|k' rest IH]; simpl; [done|].
  rewrite !elem_of_cons, list_elem_of_filter, IH.
  destruct (decide (k = k')) as [->|Hne]; [by split; left|].
  split.
  - intros [Heq|[_ Hin]]; [by left|by right].
  - intros [Heq|Hin]; [done|by right].
Qed.

Lemma firstSeen_NoDup ks : NoDup (firstSeen ks).
Proof.
  induction ks as [|k rest IH]; simpl; [constructor|].
  apply NoDup_cons. split.
  - rewrite list_elem_of_filter. by intros [Hne _].
  - by apply NoDup_filter.
Qed.

Lemma elem_of_concat_keys {A} (f : A -> list string) (xs : list A) k :
  k ∈ concat (map f xs) <-> exists x, x ∈ xs /\ k ∈ f x.
Proof.
  rewrite list_elem_of_In, in_concat. split.
  - intros (ks & Hks & Hk). apply in_map_iff in Hks as (x & <- & Hx).
    exists x. by rewrite !list_elem_of_In.
  - intros (x & Hx & Hk). exists (f x). rewrite <- !list_elem_of_In.
    split; [|done]. apply list_elem_of_In, in_map_iff. exists x.
    by rewrite <- list_elem_of_In.
Qed.

(** X6. Without a usable column list the headers never repeat a name, and
    they are exactly the keys that some row has; a column list that is
    supplied is taken as it is, repetitions included. *)
Theorem gathered_headers_unique (M : members) (h : heap) (now : Z)
    (data : value) (columns : option (list string)) headers cells ts :
  consoleTable M h now data columns = Normal (MsgTable headers cells ts) ->
  (columns = None \/ columns = Some [] ->
   NoDup headers
   /\ exists rows, normalize h data = Normal rows
                   /\ forall k, k ∈ headers <-> exists r, r ∈ rows /\ k ∈ rowKeys h r)
  /\ (forall c cs, columns = Some (c :: cs) -> headers = c :: cs).
Proof.
  intros H. destruct (consoleTable_rectangular _ _ _ _ _ _ _ _ H)
    as (_ & _ & rows & Hn & _ & ->).
  split.
  - intros Hc.
    assert (Hh : resolveHeaders h rows columns
                 = firstSeen (concat (map (rowKeys h) rows))).
    { destruct Hc as [-> | ->]; simpl; apply gatherKeys_firstSeen. }
    rewrite Hh. split; [apply firstSeen_NoDup|].
    exists rows. split; [done|]. intros k.
    rewrite firstSeen_elem. apply elem_of_concat_keys.
  - by intros c cs ->.
Qed.

Lemma gathered_headers_unique_witness :
  NoDup ["a"; "b"]
  /\ ["a"; "a"] = ["a"; "a"].
Proof.
  split.
  - exact (proj1 (proj1 (gathered_headers_unique inheritsFromObject twoRows 5
                           (VRef 0) None
                           ["a"; "b"] [["1"; "2"]; ["3"; "4"]] 5 eq_refl)
                        (or_introl eq_refl))).
  - exact (proj2 (gathered_headers_unique inheritsFromObject twoRows 5 (VRef 0)
                    (Some ["a"; "a"])
                    ["a"; "a"] [["1"; "1"]; ["3"; "3"]] 5 eq_refl)
                 "a" ["a"] eq_refl).
Defined.

(** ** [console.table]: data that is not an array of objects *)










(** ** [console.table]: cells without a value *)

(** X9. In the table of an array, a row that is falsy (null, undefined, 0,
    the empty string, false) is rendered as itself in every column.  In
    the column of a name that a row, a plain object, does not have as a
    property of its own, the cell is the text of what the read finds
    beyond the own properties: [undefined] when the object inherits
    nothing under that name, and the inherited member otherwise. *)
Theorem consoleTable_cells_without_value (M : members) (h : heap) (now : Z)
    (a : addr) (elems : list value) (columns : option (list string))
    headers cells ts :
  h a = OArray Array elems ->
  consoleTable M h now (VRef a) columns = Normal (MsgTable headers cells ts) ->
  forall i j v k line,
    elems !! i = Some v -> cells !! i = Some line -> headers !! j = Some k ->
    (truthy v = false -> exists text, formatValue h v = Normal text
                                      /\ line !! j = Some text)
    /\ (forall b props,
           v = VRef b -> h b = OObject props -> k ∉ keysOf props ->
           (exists w text,
               beyond M h v k = Normal w /\ formatValue h w = Normal text
               /\ line !! j = Some text)
           /\ (beyond M h v k = Normal VUndefined ->
               line !! j = Some "undefined")).
Proof.
  intros Ha H i j v k line Hv Hline Hk.
  unfold consoleTable, normalize in H. rewrite Ha in H.
  destruct (formatRows M h (map RowValue elems) _) as [cells'|e] eqn:Hr; [|done].
  injection H as <- <- <-.
  apply formatRows_text in Hr. unfold tableText in Hr.
  assert (Hrow : map RowValue elems !! i = Some (RowValue v)).
  { by rewrite list_lookup_fmap, Hv. }
  pose proof (Forall2_lookup_lr _ _ _ _ _ _ Hr Hrow Hline) as Hcells.
  destruct (Forall2_lookup_l _ _ _ _ _ Hcells Hk) as (text & Htext & (c & Hc & Hf)).
  simpl in Hc. split.
  - intros Hfalsy. rewrite Hfalsy in Hc. injection Hc as <-. by exists text.
  - intros b props -> Hb Hmiss. simpl in Hc. unfold get in Hc.
    assert (Hown : ownKeys h (VRef b) = keysOf props) by (simpl; by rewrite Hb).
    rewrite Hown, bool_decide_eq_false_2 in Hc by done.
    split; [by exists c, text|].
    intros Hu. rewrite Hu in Hc. injection Hc as <-.
    rewrite Htext. f_equal. vm_compute in Hf. by injection Hf as <-.
Qed.

Lemma consoleTable_cells_without_value_witness :
  (exists text, formatValue raggedRows VNull = Normal text
                /\ ["null"; "null"] !! 1 = Some text)
  /\ ["1"; "undefined"] !! 1 = Some "undefined"
  /\ (exists w text,
         beyond inheritsFromObject raggedRows (VRef 1) "constructor" = Normal w
         /\ formatValue raggedRows w = Normal text
         /\ ["[Function Object]"] !! 0 = Some text).
Proof.
  assert (H : consoleTable inheritsFromObject raggedRows 5 (VRef 0) None
              = Normal (MsgTable ["a"; "b"]
                          [["null"; "null"]; ["1"; "undefined"]; ["undefined"; "2"]] 5))
    by reflexivity.
  assert (H' : consoleTable inheritsFromObject raggedRows 5 (VRef 0)
                 (Some ["constructor"])
               = Normal (MsgTable ["constructor"]
                           [["null"]; ["[Function Object]"]; ["[Function Object]"]] 5))
    by reflexivity.
  assert (Hmiss : forall k, k <> "a" -> k ∉ keysOf [("a", Data (VNumber 1))]).
  { intros k Hne Hin. apply list_elem_of_singleton in Hin. by apply Hne. }
  split; [|split].
  - exact (proj1 (consoleTable_cells_without_value inheritsFromObject raggedRows 5 0
                    [VNull; VRef 1; VRef 2] None _ _ _ eq_refl H
                    0 1 VNull "b" ["null"; "null"] eq_refl eq_refl eq_refl)
                 eq_refl).
  - exact (proj2 (proj2 (consoleTable_cells_without_value inheritsFromObject
                           raggedRows 5 0
                           [VNull; VRef 1; VRef 2] None _ _ _ eq_refl H
                           1 1 (VRef 1) "b" ["1"; "undefined"]
                           eq_refl eq_refl eq_refl)
                        1 [("a", Data (VNumber 1))] eq_refl eq_refl
                        (Hmiss "b" ltac:(discriminate)))
                 eq_refl).
  - exact (proj1 (proj2 (consoleTable_cells_without_value inheritsFromObject
                           raggedRows 5 0
                           [VNull; VRef 1; VRef 2] (Some ["constructor"]) _ _ _
                           eq_refl H'
                           1 0 (VRef 1) "constructor" ["[Function Object]"]
                           eq_refl eq_refl eq_refl)
                        1 [("a", Data (VNumber 1))] eq_refl eq_refl
                        (Hmiss "constructor" ltac:(discriminate)))).
Defined.

(** ** [resolveSpec]: resolving twice *)

Lemma append_nil_r (s : string) : s +:+ EmptyString = s.
Proof.
  induction s as [|c s IH]; [reflexivity|].
  change (String c (s +:+ EmptyString) = String c s). by f_equal.
Qed.

Lemma append_length (s1 s2 : string) :
  String.length (s1 +:+ s2) = String.length s1 + String.length s2.
Proof.
  induction s1 as [|c s1 IH]; [reflexivity|].
  change (S (String.length (s1 +:+ s2)) = S (String.length s1 + String.length s2)).
  by f_equal.
Qed.

Lemma rev_app_spec (s1 s2 : string) : String.rev_app s1 s2 = String.rev s1 +:+ s2.
Proof.
  unfold String.rev. revert s2. induction s1 as [|c s1 IH]; intros s2; [reflexivity|].
  simpl. rewrite IH, (IH (String c EmptyString)), append_assoc. reflexivity.
Qed.

Lemma rev_cons (c : ascii) (s : string) :
  String.rev (String c s) = String.rev s +:+ String c EmptyString.
Proof. unfold String.rev at 1. simpl. apply rev_app_spec. Qed.

Lemma rev_append (s1 s2 : string) :
  String.rev (s1 +:+ s2) = String.rev s2 +:+ String.rev s1.
Proof.
  induction s1 as [|c s1 IH].
  - change (String.rev s2 = String.rev s2 +:+ EmptyString). by rewrite append_nil_r.
  - change (String.rev (String c (s1 +:+ s2))
            = String.rev s2 +:+ String.rev (String c s1)).
    by rewrite !rev_cons, IH, append_assoc.
Qed.

Lemma rev_involutive (s : string) : String.rev (String.rev s) = s.
Proof.
  induction s as [|c s IH]; [reflexivity|].
  rewrite rev_cons, rev_append, IH. reflexivity.
Qed.

Lemma rev_length (s : string) : String.length (String.rev s) = String.length s.
Proof.
  induction s as [|c s IH]; [reflexivity|].
  rewrite rev_cons, append_length, IH. simpl. lia.
Qed.

Lemma stripPrefix_some p s s' : stripPrefix p s = Some s' -> s = p +:+ s'.
Proof.
  revert s. induction p as [|a p IH]; intros s; simpl.
  - by intros [= ->].
  - destruct s as [|b s]; [done|].
    destruct (Ascii.eqb a b) eqn:E; [|done].
    apply Ascii.eqb_eq in E. subst. intros H%IH. subst. reflexivity.
Qed.

Lemma stripPrefix_append p s s' w :
  stripPrefix p s = Some s' -> stripPrefix p (s +:+ w) = Some (s' +:+ w).
Proof.
  revert s. induction p as [|a p IH]; intros s; simpl.
  - by intros [= ->].
  - destruct s as [|b s]; [done|].
    change (String b s +:+ w) with (String b (s +:+ w)). cbn [stripPrefix].
    destruct (Ascii.eqb a b); [apply IH|done].
Qed.

Lemma stripAny_shorter tokens s s' :
  Forall nonEmpty tokens -> stripAny tokens s = Some s' ->
  String.length s' < String.length s.
Proof.
  induction 1 as [|t tokens Ht _ IH]; simpl; [done|].
  destruct (stripPrefix t s) as [s1|] eqn:E; [|exact IH].
  intros [= <-]. apply stripPrefix_some in E. subst.
  rewrite append_length. destruct t; [done|]. simpl. lia.
Qed.

Lemma stripAny_suffix tokens s s' :
  stripAny tokens s = Some s' -> exists w, s = w +:+ s'.
Proof.
  induction tokens as [|t tokens IH]; simpl; [done|].
  destruct (stripPrefix t s) as [s1|] eqn:E; [|exact IH].
  intros [= <-]. exists t. by apply stripPrefix_some.
Qed.

Lemma stripAny_append tokens s w :
  stripAny tokens (s +:+ w) = None -> stripAny tokens s = None.
Proof.
  induction tokens as [|t tokens IH]; simpl; [done|].
  destruct (stripPrefix t s) as [s1|] eqn:E.
  - by rewrite (stripPrefix_append _ _ _ w E).
  - destruct (stripPrefix t (s +:+ w)); [done|exact IH].
Qed.

Lemma stripAll_fixed tokens n s : stripAny tokens s = None -> stripAll tokens n s = s.
Proof. intros H. destruct n; simpl; [done|]. by rewrite H. Qed.

Lemma stripAny_empty tokens :
  Forall nonEmpty tokens -> stripAny tokens EmptyString = None.
Proof.
  induction 1 as [|t tokens Ht _ IH]; simpl; [done|]. by destruct t.
Qed.

Lemma stripAll_clean tokens n s :
  Forall nonEmpty tokens -> String.length s <= n ->
  stripAny tokens (stripAll tokens n s) = None.
Proof.
  intros Ht. revert s. induction n as [|n IH]; intros s Hlen; simpl.
  - destruct s; [|simpl in Hlen; lia]. by apply stripAny_empty.
  - destruct (stripAny tokens s) as [s'|] eqn:E; [|done].
    apply IH. pose proof (stripAny_shorter _ _ _ Ht E). lia.
Qed.

Lemma stripAll_suffix tokens n s : exists w, s = w +:+ stripAll tokens n s.
Proof.
  revert s. induction n as [|n IH]; intros s; simpl; [by exists EmptyString|].
  destruct (stripAny tokens s) as [s'|] eqn:E; [|by exists EmptyString].
  destruct (stripAny_suffix _ _ _ E) as [w1 ->].
  destruct (IH s') as [w2 Hw2]. exists (w1 +:+ w2).
  rewrite append_assoc. by rewrite <- Hw2.
Qed.

Lemma whiteSpace_nonEmpty : Forall nonEmpty whiteSpace.
Proof. repeat constructor; discriminate. Qed.

Lemma whiteSpace_rev_nonEmpty : Forall nonEmpty (map String.rev whiteSpace).
Proof. repeat constructor; discriminate. Qed.

Lemma trimmed_trim s : trimmed s -> trim s = s.
Proof.
  intros [Hs He]. unfold trim, trimStart, trimEnd.
  rewrite (stripAll_fixed _ _ _ Hs), (stripAll_fixed _ _ _ He).
  apply rev_involutive.
Qed.

Lemma trim_trimmed s : trimmed (trim s).
Proof.
  unfold trim. set (t := trimStart s).
  assert (Ht : stripAny whiteSpace t = None).
  { apply stripAll_clean; [apply whiteSpace_nonEmpty|done]. }
  unfold trimEnd.
  set (x := stripAll (map String.rev whiteSpace) (String.length t) (String.rev t)).
  split.
  - destruct (stripAll_suffix (map String.rev whiteSpace) (String.length t)
                (String.rev t)) as [w Hw]. fold x in Hw.
    apply (stripAny_append _ _ (String.rev w)).
    rewrite <- rev_append, <- Hw, rev_involutive. exact Ht.
  - rewrite rev_involutive. apply stripAll_clean;
      [apply whiteSpace_rev_nonEmpty|by rewrite rev_length].
Qed.

Lemma trim_idempotent s : trim (trim s) = trim s.
Proof. apply trimmed_trim, trim_trimmed. Qed.

Lemma assoc_In table k v : assoc table k = Some v -> In (k, v) table.
Proof.
  induction table as [|[k' v'] rest IH]; simpl; [done|].
  destruct (String.eqb k' k) eqn:E; [|by right; apply IH].
  apply String.eqb_eq in E. intros [= ->]. subst. by left.
Qed.

Lemma table_paths_trimmed :
  Forall (fun entry => trimmed (cdn +:+ snd entry)) (aliasMap ++ objectPrototype).
Proof. repeat constructor. Qed.

Lemma resolved_path_trimmed name :
  trimmed (cdn +:+ match mapGet name with
                   | Some found => found
                   | None => name +:+ "@latest"
                   end).
Proof.
  destruct (mapGet name) as [found|] eqn:E.
  - assert (Hin : In (name, found) (aliasMap ++ objectPrototype)).
    { unfold mapGet in E. apply in_or_app.
      destruct (assoc aliasMap name) as [p|] eqn:Ea.
      - injection E as <-. left. by apply assoc_In.
      - right. by apply assoc_In. }
    exact (proj1 (Forall_forall _ _) table_paths_trimmed _
             (proj2 (list_elem_of_In _ _) Hin)).
  - split; [reflexivity|].
    rewrite !rev_append. reflexivity.
Qed.

Lemma resolveSpec_settled spec :
  isLocator (resolveSpec spec) = true /\ trim (resolveSpec spec) = resolveSpec spec.
Proof.
  unfold resolveSpec. destruct (isLocator (trim spec)) eqn:E.
  - split; [done|apply trim_idempotent].
  - split; [reflexivity|]. apply trimmed_trim, resolved_path_trimmed.
Qed.

Lemma resolveSpec_fixed spec : resolveSpec (resolveSpec spec) = resolveSpec spec.
Proof.
  destruct (resolveSpec_settled spec) as [Hl Ht].
  unfold resolveSpec at 1. by rewrite Ht, Hl.
Qed.

(** X10. What [resolveSpec] returns always passes the test of line 124
    and has no white space around it, so resolving a resolved locator
    returns it unchanged: a bare name is never handed on. *)
Theorem resolveSpec_idempotent (spec : string) :
  isLocator (resolveSpec spec) = true
  /\ trim (resolveSpec spec) = resolveSpec spec
  /\ resolveSpec (resolveSpec spec) = resolveSpec spec.
Proof.
  destruct (resolveSpec_settled spec) as [Hl Ht].
  split; [done|]. split; [done|]. apply resolveSpec_fixed.
Qed.

(** ** The loader and the untargeted reports of the worker *)





(** ** Escaping and the markup of a table *)

Lemma cons_append c s t : String c s +:+ t = String c (s +:+ t).
Proof. reflexivity. Qed.

Lemma replaceAll_append c by_ a b :
  replaceAll c by_ (a +:+ b) = replaceAll c by_ a +:+ replaceAll c by_ b.
Proof.
  induction a as [|x a IH]; [reflexivity|].
  rewrite cons_append. cbn [replaceAll]. rewrite IH.
  destruct (Ascii.eqb x c); [by rewrite append_assoc|reflexivity].
Qed.

Lemma esc_append a b : esc (a +:+ b) = esc a +:+ esc b.
Proof. unfold esc. by rewrite !replaceAll_append. Qed.

Lemma entity_cases c :
  (c = "&"%char /\ entity c = "&amp;")
  \/ (c = "<"%char /\ entity c = "&lt;")
  \/ (c = ">"%char /\ entity c = "&gt;")
  \/ (c <> "&"%char /\ c <> "<"%char /\ c <> ">"%char
      /\ entity c = String c EmptyString).
Proof.
  unfold entity.
  destruct (Ascii.eqb_spec c "&"); [by left|].
  destruct (Ascii.eqb_spec c "<"); [by right; left|].
  destruct (Ascii.eqb_spec c ">"); [by right; right; left|].
  by right; right; right.
Qed.

Lemma esc_one c : esc (String c EmptyString) = entity c.
Proof.
  unfold esc, entity. cbn [replaceAll].
  destruct (Ascii.eqb_spec c "&") as [->|H1]; [reflexivity|].
  cbn [replaceAll].
  destruct (Ascii.eqb_spec c "<") as [->|H2]; [reflexivity|].
  cbn [replaceAll].
  destruct (Ascii.eqb_spec c ">") as [->|H3]; reflexivity.
Qed.

Lemma esc_eachChar s : esc s = eachChar entity s.
Proof.
  induction s as [|c s IH]; [reflexivity|].
  change (String c s) with (String c EmptyString +:+ s).
  rewrite esc_append, esc_one, IH. reflexivity.
Qed.

Lemma occurrences_append c a b :
  occurrences c (a +:+ b) = occurrences c a + occurrences c b.
Proof.
  induction a as [|x a IH]; [reflexivity|].
  rewrite cons_append. cbn [occurrences]. rewrite IH. lia.
Qed.

Lemma entity_no_brackets c :
  occurrences "<" (entity c) = 0 /\ occurrences ">" (entity c) = 0.
Proof.
  destruct (entity_cases c) as [[-> ->]|[[-> ->]|[[-> ->]|(_ & H2 & H3 & ->)]]];
    try (split; reflexivity).
  cbn [occurrences].
  destruct (Ascii.eqb_spec c "<"); [done|].
  destruct (Ascii.eqb_spec c ">"); [done|]. done.
Qed.

Lemma esc_no_brackets s :
  occurrences "<" (esc s) = 0 /\ occurrences ">" (esc s) = 0.
Proof.
  rewrite esc_eachChar. induction s as [|c s [IH1 IH2]]; [done|].
  cbn [eachChar]. rewrite !occurrences_append, IH1, IH2.
  destruct (entity_no_brackets c) as [-> ->]. done.
Qed.

Lemma eachChar_entity_inj s1 s2 :
  eachChar entity s1 = eachChar entity s2 -> s1 = s2.
Proof.
  revert s2. induction s1 as [|c1 s1 IH]; intros [|c2 s2]; cbn [eachChar].
  - done.
  - destruct (entity_cases c2) as [[-> ->]|[[-> ->]|[[-> ->]|(_ & _ & _ & ->)]]];
      discriminate.
  - destruct (entity_cases c1) as [[-> ->]|[[-> ->]|[[-> ->]|(_ & _ & _ & ->)]]];
      discriminate.
  - generalize (IH s2).
    generalize (eachChar entity s1) (eachChar entity s2). intros x1 x2 IH'.
    destruct (entity_cases c1) as [[-> ->]|[[-> ->]|[[-> ->]|(A1 & A2 & A3 & ->)]]];
      destruct (entity_cases c2) as [[-> ->]|[[-> ->]|[[-> ->]|(B1 & B2 & B3 & ->)]]];
      intros H; vm_compute in H; simplify_eq; try done;
      by rewrite (IH' eq_refl).
Qed.

(** X13. [esc] rewrites each character once, to its entity or to itself:
    the three replacements, made one after the other, never touch what
    an earlier one wrote.  Its result holds no angle bracket, and texts
    that differ stay different: a bracket and the entity already written
    out for it are not confused. *)
Theorem esc_entities_once (s : string) :
  esc s = eachChar entity s
  /\ occurrences "<" (esc s) = 0
  /\ occurrences ">" (esc s) = 0
  /\ forall s', s <> s' -> esc s <> esc s'.
Proof.
  split; [apply esc_eachChar|].
  split; [apply esc_no_brackets|].
  split; [apply esc_no_brackets|].
  intros s' Hne He. apply Hne. revert He.
  rewrite !esc_eachChar. apply eachChar_entity_inj.
Qed.

Lemma esc_entities_once_witness : esc "<" <> esc "&lt;".
Proof.
  exact (proj2 (proj2 (proj2 (esc_entities_once "<"))) "&lt;"
           ltac:(discriminate)).
Defined.

Lemma occurrences_join_const c (f : string -> string) k xs :
  (forall x, occurrences c (f x) = k) ->
  occurrences c (join EmptyString (map f xs)) = k * length xs.
Proof.
  intros Hf. unfold join. induction xs as [|x xs IH]; [simpl; lia|].
  destruct xs as [|y ys].
  - simpl. rewrite Hf. lia.
  - change (String.concat EmptyString (map f (x :: y :: ys)))
      with (f x +:+ (EmptyString +:+ String.concat EmptyString (map f (y :: ys)))).
    rewrite !occurrences_append, IH, Hf. simpl. lia.
Qed.

Lemma occurrences_rows c rows :
  (c = "<" \/ c = ">")%char ->
  occurrences c
    (join EmptyString
       (map (fun r =>
               "<tr>"
               +:+ join EmptyString (map (fun x => "<td>" +:+ esc x +:+ "</td>") r)
               +:+ "</tr>")
            rows))
  = 2 * length rows + 2 * length (concat rows).
Proof.
  intros Hc. unfold join at 1. induction rows as [|r rows IH]; [reflexivity|].
  assert (Hr : occurrences c
                 ("<tr>"
                  +:+ join EmptyString (map (fun x => "<td>" +:+ esc x +:+ "</td>") r)
                  +:+ "</tr>")
               = 2 + 2 * length r).
  { rewrite !occurrences_append.
    rewrite (occurrences_join_const c (fun x => "<td>" +:+ esc x +:+ "</td>") 2).
    - destruct Hc as [-> | ->]; simpl; lia.
    - intros x. rewrite !occurrences_append.
      destruct (esc_no_brackets x) as [H1 H2].
      destruct Hc as [-> | ->]; rewrite ?H1, ?H2; reflexivity. }
  destruct rows as [|r' rows'].
  - cbn [map String.concat]. rewrite Hr. simpl. rewrite length_app. simpl. lia.
  - change (String.concat EmptyString (map ?f (r :: r' :: rows')))
      with (f r +:+ (EmptyString +:+ String.concat EmptyString (map f (r' :: rows')))).
    rewrite occurrences_append, Hr, occurrences_append, IH.
    cbn [concat length]. rewrite !length_app. simpl. lia.
Qed.

(** X14. The markup of a table has as many opening and as many closing
    angle brackets as its shape asks for, whatever the headers, the
    cells and the text of the time stamp hold: two for each header and
    each cell, two for each row, and fourteen for the frame.  No cell
    adds a tag. *)
Theorem renderTable_markup_from_shape (tsString : Z -> string)
    (headers : list string) (rows : list (list string)) (ts : Z) (c : ascii) :
  (c = "<" \/ c = ">")%char ->
  occurrences c (renderTable tsString headers rows ts)
  = 14 + 2 * length headers + 2 * length rows + 2 * length (concat rows).
Proof.
  intros Hc. unfold renderTable, attr.
  rewrite !occurrences_append.
  rewrite (occurrences_rows c rows Hc).
  rewrite (occurrences_join_const c (fun h => "<th>" +:+ esc h +:+ "</th>") 2).
  - destruct (esc_no_brackets (tsString ts)) as [H1 H2].
    destruct Hc as [-> | ->]; rewrite ?H1, ?H2; simpl; lia.
  - intros x. rewrite !occurrences_append.
    destruct (esc_no_brackets x) as [H1 H2].
    destruct Hc as [-> | ->]; rewrite ?H1, ?H2; reflexivity.
Qed.

Lemma renderTable_markup_from_shape_witness :
  occurrences "<"
    (renderTable (fun _ => "12:00") ["(index)"; "a"] [["0"; "<b>1</b>"]] 0)
  = 24.
Proof.
  exact (renderTable_markup_from_shape (fun _ => "12:00") ["(index)"; "a"]
           [["0"; "<b>1</b>"]] 0 "<" ltac:(left; reflexivity)).
Defined.

(** ** The page: commands, history and pending submissions *)

Lemma handleCommand_frame wall cmdline p :
  history (handleCommand wall cmdline p) = history p
  /\ historyIndex (handleCommand wall cmdline p) = historyIndex p
  /\ input (handleCommand wall cmdline p) = input p
  /\ pending (term (handleCommand wall cmdline p)) = pending (term p)
  /\ (outbox (handleCommand wall cmdline p) = outbox p
      \/ outbox (handleCommand wall cmdline p) = []
      \/ exists spec, spec <> EmptyString
                      /\ outbox (handleCommand wall cmdline p)
                         = (outbox p ++ [ReqLoad spec])%list).
Proof.
  unfold handleCommand.
  destruct (split (trim cmdline)) as [|cmd rest]; [by repeat split; left|].
  destruct (String.eqb cmd ".help"); [by repeat split; left|].
  destruct (String.eqb cmd ".clear"); [by repeat split; left|].
  destruct (String.eqb cmd ".reset"); [by repeat split; right; left|].
  destruct (String.eqb cmd ".load").
  - destruct (isEmpty (join " " rest)) eqn:E; [by repeat split; left|].
    repeat split. right. right. exists (join " " rest). split; [|done].
    intros H. by rewrite H in E.
  - destruct (String.eqb cmd ".history"); by repeat split; left.
Qed.

(** X15. A blank input changes nothing, and an input whose first
    non-blank character is a dot is taken for a command, even when it is
    an expression such as [.5 + 1]: it is not sent for evaluation, does
    not enter the history and registers no pending submission.  The only
    request a command can post is a [load] with a non-empty name. *)
Theorem dotted_input_never_evaluated (id : string) (now wall : Z) (code : string)
    (p : page) :
  (isEmpty (trim code) = true -> run id now wall code p = p)
  /\ (isEmpty (trim code) = true \/ startsWith "." (trim code) = true ->
      history (run id now wall code p) = history p
      /\ historyIndex (run id now wall code p) = historyIndex p
      /\ pending (term (run id now wall code p)) = pending (term p)
      /\ forall r, r ∈ outbox (run id now wall code p) ->
                   r ∈ outbox p
                   \/ exists spec, spec <> EmptyString /\ r = ReqLoad spec).
Proof.
  unfold run. split.
  - by intros ->.
  - intros H. destruct (isEmpty (trim code)); [by repeat split; left|].
    destruct H as [H|H]; [done|]. rewrite H.
    destruct (handleCommand_frame wall code p) as (H1 & H2 & _ & H4 & H5).
    split; [done|]. split; [done|]. split; [done|].
    intros r Hr. destruct H5 as [H5|[H5|(spec & Hs & H5)]]; rewrite H5 in Hr.
    + by left.
    + by apply not_elem_of_nil in Hr.
    + apply elem_of_app in Hr. destruct Hr as [Hr|Hr]; [by left|].
      apply list_elem_of_singleton in Hr. right. by exists spec.
Qed.

Lemma dotted_input_never_evaluated_witness :
  history (run "s2" 5 6 ".5 + 1" busyPage) = ["1 + 1"]
  /\ pending (term (run "s2" 5 6 ".5 + 1" busyPage)) = pending oneRunning
  /\ run "s2" 5 6 "   " busyPage = busyPage.
Proof.
  destruct (proj2 (dotted_input_never_evaluated "s2" 5 6 ".5 + 1" busyPage)
              (or_intror eq_refl)) as (H1 & _ & H3 & _).
  split; [exact H1|]. split; [exact H3|].
  exact (proj1 (dotted_input_never_evaluated "s2" 5 6 "   " busyPage) eq_refl).
Defined.

Lemma capped_length entries : length (capped entries) <= 300.
Proof.
  unfold capped. destruct (300 <? length entries) eqn:E.
  - apply Nat.ltb_lt in E. rewrite length_drop. lia.
  - apply Nat.ltb_ge in E. lia.
Qed.

Lemma capped_last entries x : last (capped (entries ++ [x])%list) = Some x.
Proof.
  unfold capped. destruct (300 <? length (entries ++ [x])%list) eqn:E.
  - apply Nat.ltb_lt in E. rewrite length_app in *. simpl in *.
    rewrite drop_app_le by lia. by rewrite last_snoc.
  - by rewrite last_snoc.
Qed.

Lemma last_recall entries x :
  last entries = Some x -> recall entries (length entries - 1) = x.
Proof.
  intros H. unfold recall. rewrite last_lookup in H.
  replace (length entries - 1) with (pred (length entries)) by lia.
  by rewrite H.
Qed.

(** X16. A submission that is evaluated is added to the history as it
    was typed.  The history never exceeds 300 entries afterwards: when it
    would, the oldest entries are dropped.  The index is left behind the
    last entry, so that ArrowUp then shows the text just submitted.  The
    submission is pending under its id and is the last request posted. *)
Theorem evaluated_input_recorded (id : string) (now wall : Z) (code : string)
    (p : page) :
  isEmpty (trim code) = false ->
  startsWith "." (trim code) = false ->
  length (history (run id now wall code p)) <= 300
  /\ last (history (run id now wall code p)) = Some code
  /\ (exists k, history (run id now wall code p) = drop k (history p ++ [code])%list)
  /\ (length (history p) < 300 ->
      history (run id now wall code p) = (history p ++ [code])%list)
  /\ historyIndex (run id now wall code p) = length (history (run id now wall code p))
  /\ input (arrowUp (run id now wall code p)) = code
  /\ pending (term (run id now wall code p)) !! id = Some now
  /\ last (outbox (run id now wall code p)) = Some (ReqEval id code).
Proof.
  intros H1 H2. unfold run. rewrite H1, H2. cbn [history historyIndex term outbox].
  split; [apply capped_length|].
  split; [apply capped_last|].
  split.
  { unfold capped. destruct (300 <? _); [by eexists|by exists 0]. }
  split.
  { intros Hl. unfold capped. rewrite length_app. simpl.
    destruct (300 <? _) eqn:E; [|done]. apply Nat.ltb_lt in E. lia. }
  split; [done|].
  split.
  { unfold arrowUp. cbn [history historyIndex input].
    pose proof (capped_last (history p) code) as Hlast.
    destruct (capped (history p ++ [code])%list) as [|x xs] eqn:Ec; [done|].
    cbn [length]. cbn [Nat.ltb Nat.leb input].
    by apply last_recall. }
  split; [apply lookup_insert_eq|].
  by rewrite last_snoc.
Qed.

Lemma evaluated_input_recorded_witness :
  history (run "s2" 5 6 " 2+2 " busyPage) = ["1 + 1"; " 2+2 "]
  /\ input (arrowUp (run "s2" 5 6 " 2+2 " busyPage)) = " 2+2 ".
Proof.
  destruct (evaluated_input_recorded "s2" 5 6 " 2+2 " busyPage eq_refl eq_refl)
    as (_ & _ & _ & H4 & _ & H6 & _).
  split; [|exact H6].
  apply H4. vm_compute. lia.
Defined.

Lemma run_index id now wall code p :
  historyIndex p <= length (history p) ->
  historyIndex (run id now wall code p) <= length (history (run id now wall code p)).
Proof.
  intros H. unfold run.
  destruct (isEmpty (trim code)); [done|].
  destruct (startsWith "." (trim code)); [|done].
  destruct (handleCommand_frame wall code p) as (-> & -> & _). done.
Qed.

Lemma run_history_length id now wall code p :
  length (history p) <= 300 ->
  length (history (run id now wall code p)) <= 300.
Proof.
  intros H. unfold run.
  destruct (isEmpty (trim code)); [done|].
  destruct (startsWith "." (trim code)).
  - destruct (handleCommand_frame wall code p) as (-> & _). done.
  - apply capped_length.
Qed.

Lemma handle_index e p :
  historyIndex p <= length (history p) ->
  historyIndex (handle e p) <= length (history (handle e p)).
Proof.
  intros H. destruct e; simpl; try done.
  - by apply run_index.
  - unfold arrowUp. destruct (0 <? historyIndex p); simpl; lia.
  - unfold arrowDown. destruct (historyIndex p + 1 <? length (history p)) eqn:E; simpl.
    + apply Nat.ltb_lt in E. lia.
    + done.
Qed.

Lemma handle_history_length e p :
  length (history p) <= 300 -> length (history (handle e p)) <= 300.
Proof.
  intros H. destruct e; simpl; try done.
  - by apply run_history_length.
  - unfold arrowUp. by destruct (0 <? historyIndex p).
  - unfold arrowDown. by destruct (historyIndex p + 1 <? length (history p)).
Qed.

Lemma handleAll_snoc events e p :
  handleAll (events ++ [e])%list p = handle e (handleAll events p).
Proof. unfold handleAll. by rewrite foldl_app. Qed.

(** X17. Whatever is typed, submitted, clicked, pressed or delivered,
    the history index stays within the history, and a history of at most
    300 entries stays so.  Hence ArrowUp, when it moves at all, shows an
    entry of the history, never the empty fallback for a missing one. *)
Theorem history_index_within_history (events : list event) (p : page) :
  historyIndex p <= length (history p) ->
  historyIndex (handleAll events p) <= length (history (handleAll events p))
  /\ (length (history p) <= 300 -> length (history (handleAll events p)) <= 300)
  /\ (0 < historyIndex (handleAll events p) ->
      history (handleAll events p) !! historyIndex (handle KeyUp (handleAll events p))
      = Some (input (handle KeyUp (handleAll events p)))).
Proof.
  intros H.
  assert (Hi : historyIndex (handleAll events p) <= length (history (handleAll events p))).
  { induction events as [|e events IH] using rev_ind; [done|].
    rewrite handleAll_snoc. by apply handle_index. }
  split; [done|]. split.
  - intros Hl. induction events as [|e events IH] using rev_ind; [done|].
    rewrite handleAll_snoc. apply handle_history_length, IH.
    clear -H Hl. induction events as [|e events IH] using rev_ind; [done|].
    rewrite handleAll_snoc. by apply handle_index.
  - intros Hpos. cbn [handle]. unfold arrowUp.
    destruct (0 <? historyIndex (handleAll events p)) eqn:E;
      [|apply Nat.ltb_ge in E; lia].
    cbn [historyIndex input]. unfold recall.
    destruct (history (handleAll events p) !! (historyIndex (handleAll events p) - 1))
      as [entry|] eqn:El; [done|].
    apply lookup_ge_None in El. lia.
Qed.

Lemma history_index_within_history_witness :
  history (handleAll [Typed "2 + 2"; Submitted "s2" 5 6; KeyDown] busyPage)
    !! 1
  = Some "2 + 2".
Proof.
  exact (proj2 (proj2 (history_index_within_history
                         [Typed "2 + 2"; Submitted "s2" 5%Z 6%Z; KeyDown] busyPage
                         ltac:(vm_compute; lia)))
           ltac:(vm_compute; lia)).
Defined.

Lemma handle_pending_other id e p :
  concerns id e = false ->
  pending (term (handle e p)) !! id = pending (term p) !! id.
Proof.
  intros H. destruct e as [text|i now wall| | | | |now msg]; simpl in *; try done.
  - apply String.eqb_neq in H. unfold run.
    destruct (isEmpty (trim (input p))); [done|].
    destruct (startsWith "." (trim (input p))).
    + by destruct (handleCommand_frame wall (input p) p) as (_ & _ & _ & -> & _).
    + simpl. by apply lookup_insert_ne.
  - unfold arrowUp. by destruct (0 <? historyIndex p).
  - unfold arrowDown. by destruct (historyIndex p + 1 <? length (history p)).
  - destruct msg as [| | |[i|] formatted ts|i formatted ts| | |];
      simpl in *; try done.
    apply String.eqb_neq in H.
    destruct (pending (term p) !! i); simpl; [|done].
    by apply lookup_delete_ne.
Qed.

(** X18. The pending entry of an id is touched by nothing but a
    submission under that id and the delivery of a Result for it.  In
    particular it outlives a reset of the sandbox, a Fault reported for
    it and any message of another submission, and no message creates
    one. *)
Theorem pending_entry_outlives_other_events (id : string) (events : list event)
    (p : page) :
  forallb (fun e => negb (concerns id e)) events = true ->
  pending (term (handleAll events p)) !! id = pending (term p) !! id.
Proof.
  induction events as [|e events IH] using rev_ind; [done|].
  rewrite forallb_app. simpl. rewrite !andb_true_iff, negb_true_iff.
  intros (Hes & He & _). rewrite handleAll_snoc.
  rewrite handle_pending_other by done. by apply IH.
Qed.

Lemma pending_entry_outlives_other_events_witness :
  pending (term (handleAll [ResetClicked;
                            Delivered 250 (MsgError (Some "s1") "boom" 0);
                            Typed "2"; Submitted "s2" 260 0;
                            Delivered 270 (MsgResult (Some "s2") "2" 0);
                            ClearClicked] busyPage)) !! "s1"
  = Some 100%Z.
Proof.
  exact (pending_entry_outlives_other_events "s1"
           [ResetClicked;
            Delivered 250 (MsgError (Some "s1") "boom" 0);
            Typed "2"; Submitted "s2" 260 0;
            Delivered 270 (MsgResult (Some "s2") "2" 0);
            ClearClicked] busyPage eq_refl).
Defined.

(** ** A submission, from the page to the worker and back *)





